(** * A fixed-window rate limiter over a Redis-like counter store

    Shallow embedding of [src/core/limiter.ts] (class [RateLimiter]) and of
    the part of [src/core/types.ts] it uses, together with a model of the
    store commands the class issues through the node-redis client
    ([SET key 0 EX w NX], [INCR], [TTL], [DEL], [MULTI GET TTL EXEC]);
    then of [src/utils/ip.ts] and of the Express adapter
    [src/adapters/express.ts], as the effects a request has on [res] and
    [next].

    - Numbers that the code handles as integers (counts, seconds,
      milliseconds) are [Z].  JavaScript doubles are exact on the integers
      the limiter meets (below 2^53), so no rounding is modelled.
    - Strings are [string]: a sequence of code units, of which only those
      up to U+00FF are representable here.
    - An [async] method is a computation over a [World]: the wall clock,
      the store, the connection flags of the client, the pending network
      behaviour, and two histories (commands sent, lines logged). *)

From Stdlib Require Import ZArith Lia Bool List Ascii String.
From Stdlib Require Import Decimal DecimalString DecimalPos DecimalZ.
From stdpp Require Import base option gmap strings list.

Local Open Scope string_scope.
Local Open Scope Z_scope.

(* ===================================================================== *)
(** ** JavaScript primitives used by the limiter *)
(* ===================================================================== *)

Module Js.

(** White space and line terminators stripped by [String.prototype.trim]
    (and skipped by [parseInt]), restricted to code units up to U+00FF:
    TAB, LF, VT, FF, CR, SP and NBSP. *)
Definition is_space (c : ascii) : bool :=
  let n := nat_of_ascii c in
  (Nat.eqb n 9 || Nat.eqb n 10 || Nat.eqb n 11 || Nat.eqb n 12
   || Nat.eqb n 13 || Nat.eqb n 32 || Nat.eqb n 160)%bool.

Definition is_digit (c : ascii) : bool :=
  let n := nat_of_ascii c in (Nat.leb 48 n && Nat.leb n 57)%bool.

Fixpoint trimStart (s : string) : string :=
  match s with
  | EmptyString => EmptyString
  | String c r => if is_space c then trimStart r else s
  end.

Fixpoint trimEnd (s : string) : string :=
  match s with
  | EmptyString => EmptyString
  | String c r =>
      match trimEnd r with
      | EmptyString => if is_space c then EmptyString else String c EmptyString
      | r' => String c r'
      end
  end.

(** [s.trim()] *)
Definition trim (s : string) : string := trimEnd (trimStart s).

(** [!s] for a string: only the empty string is falsy. *)
Definition not_string (s : string) : bool :=
  match s with EmptyString => true | _ => false end.

(** [!s] for a [string | null | undefined]. *)
Definition not_opt_string (s : option string) : bool :=
  match s with None => true | Some s => not_string s end.

(** [!o] for an object reference that may be missing. *)
Definition not_object {A} (o : option A) : bool :=
  match o with None => true | Some _ => false end.

(** A value met where the code expects a [number]: the callers of a
    JavaScript library can leave a field out or pass [NaN]; a number is
    an integer here. *)
Inductive number : Type :=
| Undefined
| NaN
| Num (z : Z).

(** [!v] *)
Definition not_number (v : number) : bool :=
  match v with
  | Undefined | NaN => true
  | Num z => z =? 0
  end.

(** [v <= 0]: comparisons with [undefined] or [NaN] are false. *)
Definition le_zero (v : number) : bool :=
  match v with
  | Undefined | NaN => false
  | Num z => z <=? 0
  end.

Definition to_Z (v : number) : Z :=
  match v with Num z => z | _ => 0 end.

(** [Math.ceil(x / d)] for integers [x] and [d > 0]. *)
Definition ceil_div (x d : Z) : Z := - ((- x) / d).

(** The decimal rendering of an integer ([String(z)]; also what the
    store keeps after [INCR]). *)
Definition of_Z (z : Z) : string := NilEmpty.string_of_int (Z.to_int z).

Fixpoint take_digits (s : string) : string :=
  match s with
  | EmptyString => EmptyString
  | String c r => if is_digit c then String c (take_digits r) else EmptyString
  end.

Definition parse_digits (s : string) : option Z :=
  match take_digits s with
  | EmptyString => None
  | ds => Z.of_uint <$> NilEmpty.uint_of_string ds
  end.

(** [parseInt(s, 10)]: leading white space is skipped, then an optional
    sign, then the longest run of decimal digits; [None] is [NaN]. *)
Definition parseInt (s : string) : option Z :=
  match trimStart s with
  | String "-" r => Z.opp <$> parse_digits r
  | String "+" r => parse_digits r
  | s' => parse_digits s'
  end.

End Js.

(* ===================================================================== *)
(** ** The counter store (a Redis server) *)
(* ===================================================================== *)

Module Redis.

(** A string value with an optional absolute expiry time (ms). *)
Record Entry : Type := mkEntry {
  value : string;
  expireAt : option Z
}.

Definition expired (e : Entry) (t : Z) : bool :=
  match expireAt e with
  | Some x => x <=? t
  | None => false
  end.

(** The entry under [k] as the server sees it at time [t]: an entry whose
    expiry time has passed is gone. *)
Definition live (st : gmap string Entry) (k : string) (t : Z) : option Entry :=
  match st !! k with
  | Some e => if expired e t then None else Some e
  | None => None
  end.

Inductive Command : Type :=
| SET_EX_NX (key val : string) (seconds : Z)
| INCR (key : string)
| TTL (key : string)
| GET (key : string)
| DEL (key : string).

Inductive Reply : Type :=
| Null
| Status (s : string)
| Integer (z : Z)
| Bulk (s : string)
| ErrorReply (msg : string).

(** The integer a stored string stands for, when it stands for one: the
    server takes a string for an integer only when it is the canonical
    decimal rendering of that integer (no empty string, no lone sign, no
    leading zeros, no "+").  The 64-bit range of the server's integers is
    not modelled. *)
Definition string2ll (s : string) : option Z :=
  match Z.of_int <$> NilEmpty.int_of_string s with
  | Some n => if String.eqb (Js.of_Z n) s then Some n else None
  | None => None
  end.

(** One command executed atomically at server time [t] (ms).
    - [SET k v EX s NX] writes only when [k] is not there, with expiry
      [t + 1000 s]; a non-positive [s] is refused.
    - [INCR k] adds one to the integer under [k], keeping its expiry; a
      key that is not there counts as 0 and is created without expiry.
    - [TTL k] is -2 for no key, -1 for a key without expiry, else the
      remaining time rounded to the nearest second.
    - [DEL k] replies with the number of keys removed. *)
Definition exec (t : Z) (c : Command) (st : gmap string Entry)
  : Reply * gmap string Entry :=
  match c with
  | SET_EX_NX k v s =>
      if s <=? 0 then (ErrorReply "ERR invalid expire time in 'set' command", st)
      else match live st k t with
           | Some _ => (Null, st)
           | None => (Status "OK", <[k := mkEntry v (Some (t + s * 1000))]> st)
           end
  | INCR k =>
      match live st k t with
      | Some e =>
          match string2ll (value e) with
          | Some n => (Integer (n + 1),
                       <[k := mkEntry (Js.of_Z (n + 1)) (expireAt e)]> st)
          | None => (ErrorReply "ERR value is not an integer or out of range", st)
          end
      | None => (Integer 1, <[k := mkEntry (Js.of_Z 1) None]> st)
      end
  | TTL k =>
      match live st k t with
      | Some e =>
          match expireAt e with
          | Some x => (Integer ((x - t + 500) / 1000), st)
          | None => (Integer (-1), st)
          end
      | None => (Integer (-2), st)
      end
  | GET k =>
      match live st k t with
      | Some e => (Bulk (value e), st)
      | None => (Null, st)
      end
  | DEL k =>
      match live st k t with
      | Some _ => (Integer 1, delete k st)
      | None => (Integer 0, delete k st)
      end
  end.

(** A queued transaction ([MULTI ... EXEC]): the commands run one after
    the other at the same server time. *)
Fixpoint exec_all (t : Z) (cs : list Command) (st : gmap string Entry)
  : list Reply * gmap string Entry :=
  match cs with
  | [] => ([], st)
  | c :: cs' =>
      let '(r, st1) := exec t c st in
      let '(rs, st2) := exec_all t cs' st1 in
      (r :: rs, st2)
  end.

End Redis.

(* ===================================================================== *)
(** ** The world an [async] method runs in *)
(* ===================================================================== *)

(** What the network does to the next command sent: how long it takes to
    reach the server (ms), and whether it gets there and back at all. *)
Record Leg : Type := mkLeg {
  delay : N;
  delivered : bool
}.

Inductive Request : Type :=
| Single (c : Redis.Command)
| Multi (cs : list Redis.Command).

(** One round-trip as seen on the wire: when it was served, what was sent,
    and the replies ([None] when the round-trip failed). *)
Record Exchange : Type := mkExchange {
  servedAt : Z;
  sent : Request;
  answer : option (list Redis.Reply)
}.

(** A line handed to [logger.info]. *)
Inductive LogLine : Type :=
| CheckLine (key : string) (count limit : Z) (allowed : bool)
| ResetLine (key : string).

Record World : Type := mkWorld {
  clock : Z;                              (* wall clock, ms since the epoch *)
  network : list Leg;                     (* what the next round-trips meet *)
  store : gmap string Redis.Entry;        (* the server's keyspace *)
  isOpen : bool;                          (* [redis.isOpen] *)
  isReady : bool;                         (* [redis.isReady] *)
  wire : list Exchange;                   (* round-trips so far, oldest first *)
  logged : list LogLine                   (* log lines so far, oldest first *)
}.

(** What a rejected promise carries: an [Error] made by the limiter, or a
    failure that comes out of the redis client. *)
Inductive Exn : Type :=
| Error (message : string)
| ClientError (message : string).

(** An [async] computation: it ends in a value or a thrown exception, and
    leaves a world behind. *)
Definition Async (A : Type) : Type := World -> (Exn + A) * World.

Definition ret {A} (a : A) : Async A := fun w => (inr a, w).
Definition throw {A} (e : Exn) : Async A := fun w => (inl e, w).
Definition bind {A B} (m : Async A) (f : A -> Async B) : Async B :=
  fun w => match m w with
           | (inr a, w1) => f a w1
           | (inl e, w1) => (inl e, w1)
           end.

Notation "'let*' x ':=' m 'in' k" := (bind m (fun x => k))
  (at level 10, x name, m at level 100, k at level 200).
Notation "'do*' m 'in' k" := (bind m (fun _ => k))
  (at level 10, m at level 100, k at level 200).

(** [Date.now()] *)
Definition Date_now : Async Z := fun w => (inr (clock w), w).

(** Time passing between two calls of the caller. *)
Definition sleep (ms : N) : Async unit := fun w =>
  (inr tt, mkWorld (clock w + Z.of_N ms) (network w) (store w)
                   (isOpen w) (isReady w) (wire w) (logged w)).

Definition logger_info (l : LogLine) : Async unit := fun w =>
  (inr tt, mkWorld (clock w) (network w) (store w)
                   (isOpen w) (isReady w) (wire w) (logged w ++ [l])).

Definition next_leg (w : World) : Leg :=
  match network w with
  | l :: _ => l
  | [] => mkLeg 0 true
  end.

Definition run_request (t : Z) (r : Request) (st : gmap string Redis.Entry)
  : list Redis.Reply * gmap string Redis.Entry :=
  match r with
  | Single c => let '(rp, st') := Redis.exec t c st in ([rp], st')
  | Multi cs => Redis.exec_all t cs st
  end.

(** One round-trip to the server.  The command is served after the delay
    of the next leg; a leg that is not delivered rejects and leaves the
    keyspace alone. *)
Definition send (r : Request) : Async (list Redis.Reply) := fun w =>
  let leg := next_leg w in
  let t := clock w + Z.of_N (delay leg) in
  if delivered leg then
    let '(rs, st') := run_request t r (store w) in
    (inr rs, mkWorld t (tl (network w)) st' (isOpen w) (isReady w)
                     (wire w ++ [mkExchange t r (Some rs)]) (logged w))
  else
    (inl (ClientError "Socket closed unexpectedly"),
     mkWorld t (tl (network w)) (store w) (isOpen w) (isReady w)
             (wire w ++ [mkExchange t r None]) (logged w)).

(** The node-redis client calls the limiter makes. *)
Module Client.

Definition protocol_error {A} : Async A :=
  throw (ClientError "unexpected reply").

(** [redis.set(key, val, { EX: seconds, NX: true })]: ["OK"] or [null]. *)
Definition set (key val : string) (EX : Z) : Async (option string) :=
  let* rs := send (Single (Redis.SET_EX_NX key val EX)) in
  match rs with
  | [Redis.Status s] => ret (Some s)
  | [Redis.Null] => ret None
  | [Redis.ErrorReply m] => throw (ClientError m)
  | _ => protocol_error
  end.

Definition integer_reply (c : Redis.Command) : Async Z :=
  let* rs := send (Single c) in
  match rs with
  | [Redis.Integer z] => ret z
  | [Redis.ErrorReply m] => throw (ClientError m)
  | _ => protocol_error
  end.

(** [redis.incr(key)] *)
Definition incr (key : string) : Async Z := integer_reply (Redis.INCR key).

(** [redis.ttl(key)] *)
Definition ttl (key : string) : Async Z := integer_reply (Redis.TTL key).

(** [redis.del(key)] *)
Definition del (key : string) : Async Z := integer_reply (Redis.DEL key).

(** [redis.multi()], queued commands, then [exec()]: the replies in
    order. *)
Definition multi_exec (cs : list Redis.Command) : Async (list Redis.Reply) :=
  send (Multi cs).

End Client.

(* ===================================================================== *)
(** ** [src/core/types.ts] *)
(* ===================================================================== *)

(** [type Algorithm = "fixed-window"] *)
Inductive Algorithm : Type := FixedWindow.

(** The client object a configuration points to; its connection state is
    in the world. *)
Inductive RedisClient : Type := TheClient.

Module RateLimitResult.
Record t : Type := mk {
  allowed : bool;
  limit : Z;
  remaining : Z;
  reset : Z;
  ttl : Z
}.
End RateLimitResult.

Module RateLimiterConfig.
(** The fields as a JavaScript caller can pass them: [redis] and
    [keyPrefix] may be missing, the numbers may be [undefined] or [NaN].
    The [logger] is left out: every [info] line goes to [logged]. *)
Record t : Type := mk {
  redis : option RedisClient;
  limit : Js.number;
  window : Js.number;
  keyPrefix : option string;
  algorithm : option Algorithm
}.
End RateLimiterConfig.

(** The value [getStatus] resolves to when it is not [null]; [current] is
    what [parseInt] gave ([None] for [NaN]). *)
Module WindowStatus.
Record t : Type := mk {
  current : option Z;
  ttl : Z
}.
End WindowStatus.

(* ===================================================================== *)
(** ** [src/core/limiter.ts]: class [RateLimiter] *)
(* ===================================================================== *)

Module RateLimiter.

Record t : Type := mk {
  redis : RedisClient;
  requestLimit : Z;
  window : Z;
  keyPrefix : string;
  algorithm : Algorithm
}.

(** [validateConfig]: [inl] is the exception thrown. *)
Definition validateConfig (config : RateLimiterConfig.t) : Exn + unit :=
  if Js.not_object (RateLimiterConfig.redis config) then
    inl (Error "Redis client is required")
  else if (Js.not_number (RateLimiterConfig.limit config)
           || Js.le_zero (RateLimiterConfig.limit config))%bool then
    inl (Error "Limit must be a positive number")
  else if (Js.not_number (RateLimiterConfig.window config)
           || Js.le_zero (RateLimiterConfig.window config))%bool then
    inl (Error "Window must be a positive number (in seconds)")
  else if (Js.not_opt_string (RateLimiterConfig.keyPrefix config)
           || String.eqb (Js.trim (default "" (RateLimiterConfig.keyPrefix config))) "")%bool then
    inl (Error "Key prefix is required")
  else inr tt.

(** [constructor]: validation, then the fields are copied;
    [config.algorithm || "fixed-window"]. *)
Definition new (config : RateLimiterConfig.t) : Exn + t :=
  match validateConfig config with
  | inl e => inl e
  | inr _ =>
      inr (mk (default TheClient (RateLimiterConfig.redis config))
              (Js.to_Z (RateLimiterConfig.limit config))
              (Js.to_Z (RateLimiterConfig.window config))
              (default "" (RateLimiterConfig.keyPrefix config))
              (default FixedWindow (RateLimiterConfig.algorithm config)))
  end.

(** [buildKey] *)
Definition buildKey (this : t) (identifier : string) : string :=
  "ratelimit:" +:+ keyPrefix this +:+ ":" +:+ identifier.

(** [isRedisAvailable] *)
Definition isRedisAvailable (this : t) : Async bool := fun w =>
  (inr (isOpen w && isReady w)%bool, w).

(** [fixedWindowLimit] *)
Definition fixedWindowLimit (this : t) (key : string)
  : Async RateLimitResult.t :=
  let* now := Date_now in
  let* initialized := Client.set key "0" (window this) in
  let* currentCount := Client.incr key in
  let* ttl := Client.ttl key in
  let resetTime :=
    if 0 <? ttl then now + ttl * 1000 else now + window this * 1000 in
  let remaining := Z.max 0 (requestLimit this - currentCount) in
  let allowed := currentCount <=? requestLimit this in
  do* logger_info (CheckLine key currentCount (requestLimit this) allowed) in
  ret (RateLimitResult.mk
         allowed
         (requestLimit this)
         remaining
         (Js.ceil_div resetTime 1000)
         (if 0 <? ttl then ttl else window this)).

(** [limit].  The [throw] that ends the method in the source is out of
    reach: [Algorithm] has one value. *)
Definition limit (this : t) (identifier : string) : Async RateLimitResult.t :=
  if (Js.not_string identifier || String.eqb (Js.trim identifier) "")%bool then
    throw (Error "Identifier cannot be empty")
  else
    let* available := isRedisAvailable this in
    if negb available then throw (Error "Redis client is not available")
    else
      let key := buildKey this identifier in
      match algorithm this with
      | FixedWindow => fixedWindowLimit this key
      end.

(** [reset] *)
Definition reset (this : t) (identifier : string) : Async bool :=
  if (Js.not_string identifier || String.eqb (Js.trim identifier) "")%bool then
    throw (Error "Identifier cannot be empty")
  else
    let* available := isRedisAvailable this in
    if negb available then throw (Error "Redis client is not available")
    else
      let key := buildKey this identifier in
      let* result := Client.del key in
      do* logger_info (ResetLine key) in
      ret (0 <? result).

(** [results?.[0] as string | null] *)
Definition as_string_or_null (r : option Redis.Reply) : option string :=
  match r with
  | Some (Redis.Bulk s) => Some s
  | _ => None
  end.

(** [(results?.[1] as number) || -1]: a missing reply and the number 0
    are both falsy. *)
Definition as_number_or_minus_one (r : option Redis.Reply) : Z :=
  match r with
  | Some (Redis.Integer z) => if z =? 0 then -1 else z
  | _ => -1
  end.

(** [getStatus]: [None] is [null]. *)
Definition getStatus (this : t) (identifier : string)
  : Async (option WindowStatus.t) :=
  if (Js.not_string identifier || String.eqb (Js.trim identifier) "")%bool then
    throw (Error "Identifier cannot be empty")
  else
    let* available := isRedisAvailable this in
    if negb available then throw (Error "Redis client is not available")
    else
      let key := buildKey this identifier in
      let* results := Client.multi_exec [Redis.GET key; Redis.TTL key] in
      let currentValue := as_string_or_null (results !! 0%nat) in
      let ttl := as_number_or_minus_one (results !! 1%nat) in
      if (Js.not_opt_string currentValue || (ttl <? 0))%bool then ret None
      else
        let current := Js.parseInt (default "" currentValue) in
        ret (Some (WindowStatus.mk current ttl)).

End RateLimiter.

(** The error kinds of the specification, as the exceptions the code
    throws for them. *)
Definition InvalidArgument : Exn := Error "Identifier cannot be empty".
Definition StoreUnavailable : Exn := Error "Redis client is not available".

(** A caller that makes one [limit] call after each pause of [gaps], for
    one identifier, and collects how each call ended. *)
Fixpoint limit_calls (this : RateLimiter.t) (identifier : string)
    (gaps : list N) (w : World) : list (Exn + RateLimitResult.t) * World :=
  match gaps with
  | [] => ([], w)
  | g :: gaps' =>
      let '(_, w0) := sleep g w in
      let '(o, w1) := RateLimiter.limit this identifier w0 in
      let '(os, w2) := limit_calls this identifier gaps' w1 in
      (o :: os, w2)
  end.

(* ===================================================================== *)
(** ** Vocabulary of the statements *)
(* ===================================================================== *)

(** The time at which the next command sent from [w] is served. *)
Definition arrival (w : World) : Z := clock w + Z.of_N (delay (next_leg w)).

(** The world after a served round-trip [x] that left the keyspace [st]. *)
Definition after_send (w : World) (st : gmap string Redis.Entry) (x : Exchange)
  : World :=
  mkWorld (arrival w) (tl (network w)) st (isOpen w) (isReady w)
          (wire w ++ [x]) (logged w).

(** [answered c rp w w']: from [w], the single command [c] is delivered,
    the server replies [rp], and the world becomes [w']. *)
Definition answered (c : Redis.Command) (rp : Redis.Reply) (w w' : World) : Prop :=
  delivered (next_leg w) = true /\
  exists st', Redis.exec (arrival w) c (store w) = (rp, st') /\
              w' = after_send w st' (mkExchange (arrival w) (Single c) (Some [rp])).

Definition with_line (w : World) (l : LogLine) : World :=
  mkWorld (clock w) (network w) (store w) (isOpen w) (isReady w) (wire w)
          (logged w ++ [l]).

(** An identifier the operations refuse: empty, or nothing but white
    space. *)
Definition blank (identifier : string) : Prop :=
  identifier = "" \/ Js.trim identifier = "".

(** The client reports itself connected and ready. *)
Definition available (w : World) : Prop :=
  isOpen w = true /\ isReady w = true.

Definition succeeded {A} (o : Exn + A) : Prop := exists a, o = inr a.

(** Every value in the keyspace is the decimal rendering of a count. *)
Definition counters_wf (st : gmap string Redis.Entry) : Prop :=
  forall k e, st !! k = Some e -> exists n, 0 <= n /\ Redis.value e = Js.of_Z n.

Definition command_key (c : Redis.Command) : string :=
  match c with
  | Redis.SET_EX_NX k _ _ | Redis.INCR k | Redis.TTL k
  | Redis.GET k | Redis.DEL k => k
  end.

Definition request_keys (r : Request) : list string :=
  match r with
  | Single c => [command_key c]
  | Multi cs => map command_key cs
  end.

(** Every command of the round-trip [x] is about the key [key]. *)
Definition addresses (key : string) (x : Exchange) : Prop :=
  Forall (eq key) (request_keys (sent x)).

(** A number a configuration may carry as quota or window. *)
Definition positive_number (v : Js.number) : Prop :=
  match v with
  | Js.Num z => 0 < z
  | _ => False
  end.

(** A key prefix that is absent or trims to the empty string. *)
Definition namespace_missing (p : option string) : Prop :=
  match p with
  | None => True
  | Some s => Js.trim s = ""
  end.

(** The line a [limit] call logs when it observes the count [k]. *)
Definition check_line (this : RateLimiter.t) (key : string) (k : Z) : LogLine :=
  CheckLine key k (RateLimiter.requestLimit this)
            (k <=? RateLimiter.requestLimit this).

(** The call ended in a result that admits exactly when the count [k] is
    within the quota, with what is left of the quota floored at 0. *)
Definition call_counted (this : RateLimiter.t) (k : Z)
    (o : Exn + RateLimitResult.t) : Prop :=
  exists r, o = inr r
    /\ RateLimitResult.allowed r = (k <=? RateLimiter.requestLimit this)
    /\ RateLimitResult.remaining r = Z.max 0 (RateLimiter.requestLimit this - k).

(** The requests the methods of [this] put on the wire for [identifier]. *)
Inductive issued (this : RateLimiter.t) (identifier : string) : Request -> Prop :=
| issued_set :
    issued this identifier
      (Single (Redis.SET_EX_NX (RateLimiter.buildKey this identifier) "0"
                               (RateLimiter.window this)))
| issued_incr :
    issued this identifier (Single (Redis.INCR (RateLimiter.buildKey this identifier)))
| issued_ttl :
    issued this identifier (Single (Redis.TTL (RateLimiter.buildKey this identifier)))
| issued_del :
    issued this identifier (Single (Redis.DEL (RateLimiter.buildKey this identifier)))
| issued_get_ttl :
    issued this identifier
      (Multi [Redis.GET (RateLimiter.buildKey this identifier);
              Redis.TTL (RateLimiter.buildKey this identifier)]).

(** The next [n] round-trips will get to the server and back. *)
Definition legs_delivered (n : nat) (w : World) : Prop :=
  Forall (fun l => delivered l = true) (take n (network w)).

(** The configuration of the test-suite and of the scenarios of the
    specification: 10 requests per 60 seconds under the prefix "test". *)
Definition demo_config : RateLimiterConfig.t :=
  RateLimiterConfig.mk (Some TheClient) (Js.Num 10) (Js.Num 60) (Some "test") None.

Definition demo_limiter : RateLimiter.t :=
  RateLimiter.mk TheClient 10 60 "test" FixedWindow.

(** A connected client, an empty keyspace, a network without delays or
    losses, at some instant that is not a whole second. *)
Definition demo_world : World :=
  mkWorld 1700000000123 [] ∅ true true [] [].

(** The same world with a client that is open but not ready. *)
Definition offline_world : World :=
  mkWorld 1700000000123 [] ∅ true false [] [].

(** The same configuration with the client left out. *)
Definition config_without_client : RateLimiterConfig.t :=
  RateLimiterConfig.mk None (Js.Num 10) (Js.Num 60) (Some "test") None.

(** The result of a call, for a call that returned one. *)
Definition result_of {A} (dflt : A) (o : Exn + A) : A :=
  match o with
  | inr a => a
  | inl _ => dflt
  end.

Definition no_result : RateLimitResult.t := RateLimitResult.mk false 0 0 0 0.

(** The worlds a deployment can be in: it starts with an empty keyspace
    and empty histories; time passes, the network and the connection
    change; limiters, of any configuration, run their methods. *)
Inductive reachable : World -> Prop :=
| reachable_start c net o r :
    reachable (mkWorld c net ∅ o r [] [])
| reachable_env w c net o r :
    reachable w -> clock w <= c ->
    reachable (mkWorld c net (store w) o r (wire w) (logged w))
| reachable_limit this identifier w o w' :
    reachable w -> RateLimiter.limit this identifier w = (o, w') -> reachable w'
| reachable_reset this identifier w o w' :
    reachable w -> RateLimiter.reset this identifier w = (o, w') -> reachable w'
| reachable_getStatus this identifier w o w' :
    reachable w -> RateLimiter.getStatus this identifier w = (o, w') ->
    reachable w'.

(** [preserves R m]: however [m] ends, the world it leaves is related by
    [R] to the world it started in. *)
Definition preserves {A} (R : World -> World -> Prop) (m : Async A) : Prop :=
  forall w o w', m w = (o, w') -> R w w'.

(** [fails_in_client m]: the only exceptions [m] ends in are those of the
    redis client. *)
Definition fails_in_client {A} (m : Async A) : Prop :=
  forall w e w', m w = (inl e, w') -> exists msg, e = ClientError msg.

Definition clock_le (w w' : World) : Prop := clock w <= clock w'.

Definition keeps_wf (w w' : World) : Prop :=
  counters_wf (store w) -> counters_wf (store w').

Definition extends_wire (key : string) (w w' : World) : Prop :=
  exists xs, wire w' = (wire w ++ xs)%list /\ Forall (addresses key) xs.

(* ===================================================================== *)
(** ** [src/utils/ip.ts] *)
(* ===================================================================== *)

Module Ip.

(** A header of an incoming request: one value, or several
    ([string | string[]]; a header that is not there is [undefined]). *)
Inductive HeaderValue : Type :=
| One (s : string)
| Many (l : list string).

(** What the functions read of the Express request. *)
Record Request : Type := mkRequest {
  headers : gmap string HeaderValue;
  remoteAddress : option string          (* [req.socket.remoteAddress] *)
}.

(** [s.split(",")[0]]: what comes before the first comma. *)
Fixpoint split_first (s : string) : string :=
  match s with
  | EmptyString => EmptyString
  | String c r =>
      if Ascii.eqb c "," then EmptyString else String c (split_first r)
  end.

(** [s.substring(n)] *)
Fixpoint substring_from (n : nat) (s : string) : string :=
  match n, s with
  | O, _ => s
  | S n', String _ r => substring_from n' r
  | S _, EmptyString => EmptyString
  end.

(** [extractClientIp].  An array is truthy even when empty, and its first
    element is then [undefined]: calling [split] on it throws. *)
Definition extractClientIp (req : Request) : Exn + string :=
  let from_socket :=
    match remoteAddress req with
    | Some socketIp =>
        if Js.not_string socketIp then inr "unknown" else inr socketIp
    | None => inr "unknown"
    end in
  let from_real_ip :=
    match headers req !! "x-real-ip" with
    | Some (One realIp) =>
        if Js.not_string realIp then from_socket else inr (Js.trim realIp)
    | _ => from_socket
    end in
  match headers req !! "x-forwarded-for" with
  | None => from_real_ip
  | Some (One EmptyString) => from_real_ip
  | Some forwardedFor =>
      let ips := match forwardedFor with
                 | Many l => head l
                 | One s => Some s
                 end in
      match ips with
      | None =>
          inl (Error "Cannot read properties of undefined (reading 'split')")
      | Some ips =>
          let firstIp := Js.trim (split_first ips) in
          if Js.not_string firstIp then from_real_ip else inr firstIp
      end
  end.

(** [normalizeIp] *)
Definition normalizeIp (ip : string) : string :=
  if String.prefix "::ffff:" ip then substring_from 7 ip else ip.

(** [getDefaultIdentifier] *)
Definition getDefaultIdentifier (req : Request) : Exn + string :=
  match extractClientIp req with
  | inl e => inl e
  | inr ip => inr (normalizeIp ip)
  end.

End Ip.

(* ===================================================================== *)
(** ** [src/adapters/express.ts] *)
(* ===================================================================== *)

Module Express.

(** [type FailStrategy = "open" | "closed"] *)
Inductive FailStrategy : Type := Open | Closed.

(** [ExpressRateLimitOptions]: the core configuration and the fields of
    the adapter.  The two callbacks are the caller's code and may throw. *)
Record Options : Type := mkOptions {
  config : RateLimiterConfig.t;
  identifier : option (Ip.Request -> Exn + option string);
  message : option string;
  skip : option (Ip.Request -> Exn + bool);
  failStrategy : option FailStrategy;
  standardHeaders : option bool
}.

(** [RateLimitInfo] *)
Record RateLimitInfo : Type := mkInfo {
  info_limit : Z;
  info_remaining : Z;
  info_reset : Z;
  retryAfter : option Z
}.

(** The bodies the middleware sends with [res.json]. *)
Inductive Body : Type :=
| Unavailable (error : string)
| Exceeded (error : string) (retryAfter limit remaining reset : Z).

(** What the middleware does to [res] and [next], in order.  What it
    writes to its logger is left out. *)
Inductive Effect : Type :=
| SetHeader (name value : string)
| SetStatus (code : Z)
| Json (body : Body)
| Next.

(** [setRateLimitHeaders] *)
Definition setRateLimitHeaders (info : RateLimitInfo) : list Effect :=
  ([SetHeader "X-RateLimit-Limit" (Js.of_Z (info_limit info));
   SetHeader "X-RateLimit-Remaining" (Js.of_Z (info_remaining info));
   SetHeader "X-RateLimit-Reset" (Js.of_Z (info_reset info))]
  ++ match retryAfter info with
     | Some s => [SetHeader "Retry-After" (Js.of_Z s)]
     | None => []
     end)%list.

(** What the closure returned by [rateLimit] has captured. *)
Record Middleware : Type := mkMiddleware {
  limiter : RateLimiter.t;
  mw_identifier : option (Ip.Request -> Exn + option string);
  mw_message : string;
  mw_skip : option (Ip.Request -> Exn + bool);
  mw_failStrategy : FailStrategy;
  mw_standardHeaders : bool
}.

(** [rateLimit]: the checks of the adapter, the defaults, the limiter. *)
Definition rateLimit (options : Options) : Exn + Middleware :=
  let c := config options in
  if Js.not_object (RateLimiterConfig.redis c) then
    inl (Error "Redis client is required")
  else if (Js.not_number (RateLimiterConfig.limit c)
           || Js.le_zero (RateLimiterConfig.limit c))%bool then
    inl (Error "Limit must be a positive number")
  else if (Js.not_number (RateLimiterConfig.window c)
           || Js.le_zero (RateLimiterConfig.window c))%bool then
    inl (Error "Window must be a positive number")
  else if (Js.not_opt_string (RateLimiterConfig.keyPrefix c)
           || String.eqb (Js.trim (default "" (RateLimiterConfig.keyPrefix c))) "")%bool then
    inl (Error "Key prefix is required")
  else
    match RateLimiter.new
            (RateLimiterConfig.mk
               (RateLimiterConfig.redis c) (RateLimiterConfig.limit c)
               (RateLimiterConfig.window c) (RateLimiterConfig.keyPrefix c)
               (Some (default FixedWindow (RateLimiterConfig.algorithm c))))
    with
    | inl e => inl e
    | inr l =>
        inr (mkMiddleware
               l
               (identifier options)
               (default "Too many requests. Please try again later."
                        (message options))
               (skip options)
               (default Open (failStrategy options))
               (default true (standardHeaders options)))
    end.

(** [createRateLimiter] *)
Definition createRateLimiter (options : RateLimiterConfig.t) : Exn + RateLimiter.t :=
  RateLimiter.new options.

(** [res.status(503).json({ error: ... })] *)
Definition respond_unavailable : list Effect :=
  [SetStatus 503;
   Json (Unavailable "Service temporarily unavailable. Please try again later.")].

(** Both [catch] blocks end the same way: 503 when failing closed,
    [next()] when failing open. *)
Definition on_failure (mw : Middleware) : list Effect :=
  match mw_failStrategy mw with
  | Closed => respond_unavailable
  | Open => [Next]
  end.

(** [skip && skip(req)] *)
Definition skipped (mw : Middleware) (req : Ip.Request) : Exn + bool :=
  match mw_skip mw with
  | Some skip => skip req
  | None => inr false
  end.

(** The identifier of the client: [identifier(req) || getDefaultIdentifier(req)],
    or [getDefaultIdentifier(req)] when there is no callback. *)
Definition clientIdentifier (mw : Middleware) (req : Ip.Request) : Exn + string :=
  match mw_identifier mw with
  | Some identifier =>
      match identifier req with
      | inl e => inl e
      | inr customId =>
          if Js.not_opt_string customId then Ip.getDefaultIdentifier req
          else inr (default "" customId)
      end
  | None => Ip.getDefaultIdentifier req
  end.

(** The middleware [rateLimit] returns, run on one request: the effects
    on [res] and [next], and the world the call leaves. *)
Definition handle (mw : Middleware) (req : Ip.Request) (w : World)
  : list Effect * World :=
  match skipped mw req with
  | inl _ => (on_failure mw, w)
  | inr true => ([Next], w)
  | inr false =>
      match clientIdentifier mw req with
      | inl _ => (on_failure mw, w)
      | inr clientIdentifier =>
          match RateLimiter.limit (limiter mw) clientIdentifier w with
          | (inl _, w1) => (on_failure mw, w1)
          | (inr result, w1) =>
              let headers :=
                if mw_standardHeaders mw then
                  setRateLimitHeaders
                    (mkInfo (RateLimitResult.limit result)
                            (RateLimitResult.remaining result)
                            (RateLimitResult.reset result)
                            (if RateLimitResult.allowed result then None
                             else Some (RateLimitResult.ttl result)))
                else [] in
              if negb (RateLimitResult.allowed result) then
                ((headers ++
                 [SetStatus 429;
                  Json (Exceeded (mw_message mw)
                                 (RateLimitResult.ttl result)
                                 (RateLimitResult.limit result)
                                 (RateLimitResult.remaining result)
                                 (RateLimitResult.reset result))])%list,
                 w1)
              else ((headers ++ [Next])%list, w1)
          end
      end
  end.

End Express.

(* ===================================================================== *)
(** ** Further vocabulary *)
(* ===================================================================== *)

(** The two keyspaces agree on every key but [key]. *)
Definition same_elsewhere (key : string) (w w' : World) : Prop :=
  forall k, k <> key -> store w' !! k = store w !! k.

(** The world [w] in front of a network that behaves as [net]. *)
Definition with_network (net : list Leg) (w : World) : World :=
  mkWorld (clock w) net (store w) (isOpen w) (isReady w) (wire w) (logged w).

(** A string without a comma. *)
Fixpoint no_comma (s : string) : Prop :=
  match s with
  | EmptyString => True
  | String c r => c <> ","%char /\ no_comma r
  end.

(** A request with the given headers and socket address. *)
Definition request_of (hs : list (string * Ip.HeaderValue))
    (address : option string) : Ip.Request :=
  Ip.mkRequest (list_to_map hs) address.

(** The options of the test-suite: the configuration alone, every field
    of the adapter left to its default. *)
Definition demo_options : Express.Options :=
  Express.mkOptions demo_config None None None None None.

Definition demo_middleware : Express.Middleware :=
  Express.mkMiddleware demo_limiter None
    "Too many requests. Please try again later." None Express.Open true.


(* ===================================================================== *)
(** ** Decimal strings *)
(* ===================================================================== *)

Section DecimalStrings.

Lemma take_digits_uint (d : uint) :
  Js.take_digits (NilEmpty.string_of_uint d) = NilEmpty.string_of_uint d.
Proof. induction d; simpl; try rewrite IHd; reflexivity. Qed.

Lemma parse_digits_uint (d : uint) :
  d <> Nil -> Js.parse_digits (NilEmpty.string_of_uint d) = Some (Z.of_uint d).
Proof.
  intros Hd. unfold Js.parse_digits. rewrite take_digits_uint.
  destruct (NilEmpty.string_of_uint d) eqn:E.
  - destruct d; simpl in E; congruence.
  - rewrite <- E, NilEmpty.usu. reflexivity.
Qed.

Lemma parseInt_int (d : uint) :
  d <> Nil ->
  Js.parseInt (NilEmpty.string_of_int (Pos d)) = Some (Z.of_int (Pos d))
  /\ Js.parseInt (NilEmpty.string_of_int (Neg d)) = Some (Z.of_int (Neg d)).
Proof.
  intros Hd. pose proof (parse_digits_uint d Hd) as P.
  split.
  - destruct d; try congruence; simpl in *; exact P.
  - unfold Js.parseInt. simpl. rewrite P. reflexivity.
Qed.

Lemma parseInt_of_Z (z : Z) : Js.parseInt (Js.of_Z z) = Some z.
Proof.
  unfold Js.of_Z. rewrite <- (DecimalZ.of_to z) at 2.
  destruct z as [|p|p]; [reflexivity | |];
    apply parseInt_int, Unsigned.to_uint_nonnil.
Qed.

Lemma string2ll_of_Z (z : Z) : Redis.string2ll (Js.of_Z z) = Some z.
Proof.
  unfold Redis.string2ll. unfold Js.of_Z at 1.
  rewrite NilEmpty.isi. simpl. rewrite DecimalZ.of_to, String.eqb_refl.
  reflexivity.
Qed.

Lemma of_Z_nonempty (z : Z) : Js.not_string (Js.of_Z z) = false.
Proof.
  unfold Js.of_Z. destruct z as [|p|p]; try reflexivity.
  simpl. pose proof (Unsigned.to_uint_nonnil p).
  destruct (Pos.to_uint p); try congruence; reflexivity.
Qed.

End DecimalStrings.

(* ===================================================================== *)
(** ** What a successful call went through *)
(* ===================================================================== *)

Section Inversion.

Lemma send_single_inr c w rs w' :
  send (Single c) w = (inr rs, w') ->
  exists rp, rs = [rp] /\ answered c rp w w'.
Proof.
  unfold send, answered, after_send, arrival. simpl.
  destruct (delivered (next_leg w)); [|discriminate].
  destruct (Redis.exec _ c (store w)) as [rp st'] eqn:E.
  intros [= <- <-]. exists rp. split; [reflexivity|].
  split; [reflexivity|]. exists st'. split; reflexivity.
Qed.

Lemma integer_reply_inr c w z w' :
  Client.integer_reply c w = (inr z, w') -> answered c (Redis.Integer z) w w'.
Proof.
  unfold Client.integer_reply, bind.
  destruct (send (Single c) w) as [[e|rs] w1] eqn:E; [discriminate|].
  apply send_single_inr in E as (rp & -> & A).
  destruct rp; simpl; unfold Client.protocol_error, throw, ret;
    intros [= <- <-] || intros [=]. exact A.
Qed.

Lemma set_inr k v s w o w' :
  Client.set k v s w = (inr o, w') ->
  (o = None /\ answered (Redis.SET_EX_NX k v s) Redis.Null w w') \/
  (exists m, o = Some m /\ answered (Redis.SET_EX_NX k v s) (Redis.Status m) w w').
Proof.
  unfold Client.set, bind.
  destruct (send _ w) as [[e|rs] w1] eqn:E; [discriminate|].
  apply send_single_inr in E as (rp & -> & A).
  destruct rp; simpl; unfold Client.protocol_error, throw, ret;
    intros [= <- <-] || intros [=]; eauto.
Qed.

Lemma fixedWindowLimit_inr this key w res w' :
  RateLimiter.fixedWindowLimit this key w = (inr res, w') ->
  exists rp c z w1 w2 w3,
    answered (Redis.SET_EX_NX key "0" (RateLimiter.window this)) rp w w1 /\
    (rp = Redis.Null \/ exists m, rp = Redis.Status m) /\
    answered (Redis.INCR key) (Redis.Integer c) w1 w2 /\
    answered (Redis.TTL key) (Redis.Integer z) w2 w3 /\
    w' = with_line w3 (CheckLine key c (RateLimiter.requestLimit this)
                                 (c <=? RateLimiter.requestLimit this)) /\
    res = RateLimitResult.mk
            (c <=? RateLimiter.requestLimit this)
            (RateLimiter.requestLimit this)
            (Z.max 0 (RateLimiter.requestLimit this - c))
            (Js.ceil_div (if 0 <? z then clock w + z * 1000
                          else clock w + RateLimiter.window this * 1000) 1000)
            (if 0 <? z then z else RateLimiter.window this).
Proof.
  unfold RateLimiter.fixedWindowLimit, bind, Date_now.
  destruct (Client.set _ _ _ w) as [[e|o] w1] eqn:E1; [discriminate|].
  destruct (Client.incr key w1) as [[e|c] w2] eqn:E2; [discriminate|].
  destruct (Client.ttl key w2) as [[e|z] w3] eqn:E3; [discriminate|].
  unfold logger_info, ret. intros [= <- <-].
  apply integer_reply_inr in E2, E3.
  apply set_inr in E1.
  destruct E1 as [[-> A]|(m & -> & A)].
  - exists Redis.Null, c, z, w1, w2, w3.
    split; [exact A|]. split; [by left|]. by repeat (split; [assumption|]).
  - exists (Redis.Status m), c, z, w1, w2, w3.
    split; [exact A|]. split; [right; by exists m|].
    by repeat (split; [assumption|]).
Qed.

End Inversion.

(* ===================================================================== *)
(** ** Relations every operation keeps *)
(* ===================================================================== *)

Section Preservation.

Context (R : World -> World -> Prop) `{!PreOrder R}.

Lemma preserves_ret {A} (a : A) : preserves R (ret a).
Proof. intros w o w' [= <- <-]. reflexivity. Qed.

Lemma preserves_throw {A} (e : Exn) : preserves R (@throw A e).
Proof. intros w o w' [= <- <-]. reflexivity. Qed.

Lemma preserves_bind {A B} (m : Async A) (f : A -> Async B) :
  preserves R m -> (forall a, preserves R (f a)) -> preserves R (bind m f).
Proof.
  intros Hm Hf w o w'. unfold bind.
  destruct (m w) as [[e|a] w1] eqn:E.
  - intros [= <- <-]. eapply Hm; eauto.
  - intros H. etransitivity; [eapply Hm | eapply Hf]; eauto.
Qed.

Lemma preserves_Date_now : preserves R Date_now.
Proof. intros w o w' [= <- <-]. reflexivity. Qed.

Lemma preserves_isRedisAvailable this :
  preserves R (RateLimiter.isRedisAvailable this).
Proof. intros w o w' [= <- <-]. reflexivity. Qed.

(** The three public methods are built from [logger_info] and from
    [send] on [issued] requests: a relation that these keep is kept by
    all three. *)
Section Methods.

Context (this : RateLimiter.t) (identifier : string).
Hypothesis send_ok :
  forall r, issued this identifier r -> preserves R (send r).
Hypothesis info_ok : forall l, preserves R (logger_info l).

Local Ltac step :=
  first
    [ apply preserves_ret
    | apply preserves_throw
    | apply preserves_Date_now
    | apply preserves_isRedisAvailable
    | apply send_ok; constructor
    | apply info_ok
    | apply preserves_bind; [|intros ?]
    | match goal with
      | |- preserves _ (match ?x with _ => _ end) => destruct x
      end ].

Lemma preserves_fixedWindowLimit :
  preserves R (RateLimiter.fixedWindowLimit
                 this (RateLimiter.buildKey this identifier)).
Proof.
  unfold RateLimiter.fixedWindowLimit, Client.set, Client.incr, Client.ttl,
    Client.integer_reply, Client.protocol_error.
  repeat step.
Qed.

Lemma preserves_limit : preserves R (RateLimiter.limit this identifier).
Proof.
  unfold RateLimiter.limit. repeat step.
Qed.

Lemma preserves_reset : preserves R (RateLimiter.reset this identifier).
Proof.
  unfold RateLimiter.reset, Client.del, Client.integer_reply,
    Client.protocol_error.
  repeat step.
Qed.

Lemma preserves_getStatus :
  preserves R (RateLimiter.getStatus this identifier).
Proof.
  unfold RateLimiter.getStatus, Client.multi_exec. repeat step.
Qed.

End Methods.

End Preservation.

(* ===================================================================== *)
(** ** Time only moves forward *)
(* ===================================================================== *)

Lemma clock_le_preorder : PreOrder clock_le.
Proof.
  split; unfold clock_le; [intros w; lia | intros a b c; lia].
Qed.

Lemma send_clock_le r : preserves clock_le (send r).
Proof.
  intros w o w'. unfold send, clock_le.
  destruct (delivered (next_leg w)).
  - destruct (run_request _ r (store w)). intros [= <- <-]. simpl. lia.
  - intros [= <- <-]. simpl. lia.
Qed.

Lemma logger_info_clock_le l : preserves clock_le (logger_info l).
Proof. intros w o w' [= <- <-]. unfold clock_le. simpl. lia. Qed.

Lemma limit_clock_le this identifier :
  preserves clock_le (RateLimiter.limit this identifier).
Proof.
  apply preserves_limit; auto using send_clock_le, logger_info_clock_le.
  apply clock_le_preorder.
Qed.

Lemma limit_calls_clock_le this identifier gaps :
  forall w outs w',
    limit_calls this identifier gaps w = (outs, w') -> clock w <= clock w'.
Proof.
  induction gaps as [|g gaps IH]; intros w outs w'; simpl.
  - intros [= <- <-]. lia.
  - destruct (RateLimiter.limit this identifier _) as [o w1] eqn:E1.
    destruct (limit_calls this identifier gaps w1) as [os w2] eqn:E2.
    intros [= <- <-].
    apply limit_clock_le in E1. apply IH in E2.
    unfold clock_le in E1. simpl in E1. lia.
Qed.

Lemma answered_clock c rp w w' :
  answered c rp w w' -> clock w <= clock w' /\ clock w' = arrival w.
Proof.
  intros (_ & st' & _ & ->). unfold after_send, arrival. simpl. lia.
Qed.

Lemma answered_store c rp w w' :
  answered c rp w w' ->
  exists st', Redis.exec (arrival w) c (store w) = (rp, st')
    /\ store w' = st' /\ logged w' = logged w
    /\ clock w <= clock w' /\ clock w' = arrival w.
Proof.
  intros A. destruct (answered_clock _ _ _ _ A) as [L T].
  destruct A as (_ & st' & E & ->). exists st'. auto.
Qed.

Lemma expired_mono e t t' :
  t <= t' -> Redis.expired e t' = false -> Redis.expired e t = false.
Proof.
  unfold Redis.expired. destruct (Redis.expireAt e); [|reflexivity].
  intros. apply Z.leb_gt. apply Z.leb_gt in H0. lia.
Qed.

Lemma not_live_mono st k t t' :
  t <= t' -> Redis.live st k t = None -> Redis.live st k t' = None.
Proof.
  unfold Redis.live. destruct (st !! k) as [e|]; [|reflexivity].
  intros Ht. destruct (Redis.expired e t) eqn:E; [|discriminate].
  intros _. destruct (Redis.expired e t') eqn:E'; [reflexivity|].
  rewrite (expired_mono e t t' Ht E') in E. discriminate.
Qed.

(* ===================================================================== *)
(** ** One call of [limit], seen from the keyspace *)
(* ===================================================================== *)

Lemma guard_blank identifier :
  (Js.not_string identifier || String.eqb (Js.trim identifier) "")%bool = true
  <-> blank identifier.
Proof.
  unfold blank. rewrite orb_true_iff, String.eqb_eq.
  destruct identifier; simpl; intuition congruence.
Qed.

Lemma guard_not_blank identifier :
  (Js.not_string identifier || String.eqb (Js.trim identifier) "")%bool = false
  <-> ~ blank identifier.
Proof.
  rewrite <- guard_blank. destruct (_ || _)%bool; intuition congruence.
Qed.

Lemma available_true w : available w <-> (isOpen w && isReady w)%bool = true.
Proof. unfold available. rewrite andb_true_iff. reflexivity. Qed.

Lemma limit_inr this identifier w res w' :
  RateLimiter.limit this identifier w = (inr res, w') ->
  ~ blank identifier /\ available w /\
  RateLimiter.fixedWindowLimit this (RateLimiter.buildKey this identifier) w
  = (inr res, w').
Proof.
  unfold RateLimiter.limit.
  destruct (_ || _)%bool eqn:G; [discriminate|].
  apply guard_not_blank in G.
  unfold bind, RateLimiter.isRedisAvailable.
  destruct (isOpen w && isReady w)%bool eqn:Av; simpl; [|discriminate].
  apply available_true in Av.
  destruct (RateLimiter.algorithm this). auto.
Qed.

Lemma exec_TTL_store t k st rp st' :
  Redis.exec t (Redis.TTL k) st = (rp, st') -> st' = st.
Proof.
  unfold Redis.exec. destruct (Redis.live st k t) as [e|];
    [destruct (Redis.expireAt e)|]; congruence.
Qed.

Lemma live_Some st k e t :
  st !! k = Some e -> Redis.expired e t = false -> Redis.live st k t = Some e.
Proof. unfold Redis.live. intros -> ->. reflexivity. Qed.

(** A call that finds the counter of its key and ends before that counter
    expires adds one to it and leaves its expiry alone. *)
Lemma fixedWindowLimit_in_window this key w res w' e n :
  store w !! key = Some e ->
  Redis.string2ll (Redis.value e) = Some n ->
  Redis.expired e (clock w') = false ->
  RateLimiter.fixedWindowLimit this key w = (inr res, w') ->
  store w' = <[key := Redis.mkEntry (Js.of_Z (n + 1)) (Redis.expireAt e)]> (store w)
  /\ logged w' = (logged w ++ [CheckLine key (n + 1) (RateLimiter.requestLimit this)
                                (n + 1 <=? RateLimiter.requestLimit this)])%list
  /\ RateLimitResult.allowed res = (n + 1 <=? RateLimiter.requestLimit this)
  /\ RateLimitResult.remaining res = Z.max 0 (RateLimiter.requestLimit this - (n + 1)).
Proof.
  intros Hst Hn Hexp H.
  apply fixedWindowLimit_inr in H
    as (rp & c & z & w1 & w2 & w3 & A1 & Hrp & A2 & A3 & -> & ->).
  simpl in Hexp.
  apply answered_store in A1 as (st1 & E1 & S1 & G1 & L1 & T1).
  apply answered_store in A2 as (st2 & E2 & S2 & G2 & L2 & T2).
  apply answered_store in A3 as (st3 & E3 & S3 & G3 & L3 & T3).
  apply exec_TTL_store in E3. rewrite S2 in E3. subst st3.
  (* SET finds the key *)
  unfold Redis.exec in E1.
  destruct (RateLimiter.window this <=? 0).
  { injection E1 as <- _. destruct Hrp as [|[m ?]]; discriminate. }
  rewrite (live_Some _ _ e) in E1;
    [|assumption|apply (expired_mono e _ (clock w3)); [lia|assumption]].
  injection E1 as _ <-.
  (* INCR adds one *)
  unfold Redis.exec in E2. rewrite S1 in E2.
  rewrite (live_Some _ _ e) in E2;
    [|assumption|apply (expired_mono e _ (clock w3)); [lia|assumption]].
  rewrite Hn in E2. injection E2 as <- <-.
  simpl. rewrite S3, G3, G2, G1. auto.
Qed.

(** A call that finds no counter for its key makes one and counts 1. *)
Lemma fixedWindowLimit_fresh this key w res w' :
  Redis.live (store w) key (clock w) = None ->
  RateLimiter.fixedWindowLimit this key w = (inr res, w') ->
  (exists x, store w' !! key = Some (Redis.mkEntry (Js.of_Z 1) x))
  /\ logged w' = (logged w ++ [CheckLine key 1 (RateLimiter.requestLimit this)
                                (1 <=? RateLimiter.requestLimit this)])%list
  /\ RateLimitResult.allowed res = (1 <=? RateLimiter.requestLimit this)
  /\ RateLimitResult.remaining res = Z.max 0 (RateLimiter.requestLimit this - 1).
Proof.
  intros Hno H.
  apply fixedWindowLimit_inr in H
    as (rp & c & z & w1 & w2 & w3 & A1 & Hrp & A2 & A3 & -> & ->).
  apply answered_store in A1 as (st1 & E1 & S1 & G1 & L1 & T1).
  apply answered_store in A2 as (st2 & E2 & S2 & G2 & L2 & T2).
  apply answered_store in A3 as (st3 & E3 & S3 & G3 & L3 & T3).
  apply exec_TTL_store in E3. rewrite S2 in E3. subst st3.
  (* SET creates the key *)
  unfold Redis.exec in E1.
  destruct (RateLimiter.window this <=? 0).
  { injection E1 as <- _. destruct Hrp as [|[m ?]]; discriminate. }
  rewrite (not_live_mono _ _ (clock w)) in E1; [|lia|assumption].
  injection E1 as _ <-.
  (* INCR finds "0", or nothing when the key has expired meanwhile *)
  unfold Redis.exec in E2. rewrite S1 in E2.
  unfold Redis.live in E2. rewrite lookup_insert_eq in E2.
  destruct (Redis.expired _ _); simpl in E2.
  - injection E2 as <- <-. simpl. rewrite S3, G3, G2, G1.
    split; [eexists; apply lookup_insert_eq | auto].
  - change (Redis.string2ll "0") with (Some 0) in E2. simpl in E2.
    injection E2 as <- <-. simpl. rewrite S3, G3, G2, G1.
    split; [eexists; apply lookup_insert_eq | auto].
Qed.

(* ===================================================================== *)
(** ** Sequences of calls inside one window *)
(* ===================================================================== *)

Lemma seqZ_succ_nat m (k : nat) :
  seqZ m (Z.of_nat (S k)) = m :: seqZ (m + 1) (Z.of_nat k).
Proof.
  rewrite seqZ_cons by lia. f_equal. f_equal; lia.
Qed.

Lemma limit_calls_in_window this identifier gaps :
  forall w outs wN e n,
    store w !! RateLimiter.buildKey this identifier = Some e ->
    Redis.string2ll (Redis.value e) = Some n ->
    Redis.expired e (clock wN) = false ->
    limit_calls this identifier gaps w = (outs, wN) ->
    Forall succeeded outs ->
    logged wN
    = (logged w ++ map (check_line this (RateLimiter.buildKey this identifier))
                       (seqZ (n + 1) (Z.of_nat (length gaps))))%list
    /\ Forall2 (call_counted this) (seqZ (n + 1) (Z.of_nat (length gaps))) outs.
Proof.
  induction gaps as [|g gaps IH]; intros w outs wN e n Hst Hn Hexp; simpl length.
  - simpl. intros [= <- <-] _. rewrite app_nil_r. split; [reflexivity|constructor].
  - rewrite seqZ_succ_nat. simpl.
    destruct (RateLimiter.limit this identifier _) as [o w1] eqn:E1.
    destruct (limit_calls this identifier gaps w1) as [os w2] eqn:E2.
    intros [= <- <-] Hall.
    apply Forall_cons in Hall as [[r ->] Hall].
    apply limit_inr in E1 as (_ & _ & E1).
    pose proof (limit_calls_clock_le _ _ _ _ _ _ E2) as Hle.
    apply (fixedWindowLimit_in_window _ _ _ _ _ e n) in E1
      as (S1 & G1 & Hal & Hrem);
      [|assumption|assumption|apply (expired_mono e _ (clock w2)); assumption].
    simpl in S1, G1.
    destruct (IH w1 os w2 (Redis.mkEntry (Js.of_Z (n + 1)) (Redis.expireAt e))
                 (n + 1)) as [G2 F2]; try assumption.
    + rewrite S1. apply lookup_insert_eq.
    + apply string2ll_of_Z.
    + rewrite G2, G1, <- app_assoc. split; [reflexivity|].
      constructor; [|assumption]. exists r. auto.
Qed.

(** ** C2 *)

(** C2 (monotonic counting and admission threshold).  A caller makes
    [1 + length gaps] sequential [limit] calls for one identifier, starting
    when the store holds no counter for it.  If every call returns a
    result and the counter left by the first call is still there when the
    last call returns (one window, no expiry in between), then the calls
    observe the counts 1, 2, ..., in order: the log shows exactly these
    counts, the call that observes [k] is allowed exactly when [k] is at
    most the quota and reports [max 0 (quota - k)] remaining.  Hence the
    calls numbered 1 to quota are allowed and every later one is not. *)
Theorem limit_counts_calls_in_window this identifier g gaps w r1 w1 outs wN :
  Redis.live (store w) (RateLimiter.buildKey this identifier) (clock w) = None ->
  RateLimiter.limit this identifier (snd (sleep g w)) = (inr r1, w1) ->
  limit_calls this identifier gaps w1 = (outs, wN) ->
  Forall succeeded outs ->
  is_Some (Redis.live (store w1) (RateLimiter.buildKey this identifier) (clock wN)) ->
  limit_calls this identifier (g :: gaps) w = (inr r1 :: outs, wN)
  /\ logged wN
     = (logged w ++ map (check_line this (RateLimiter.buildKey this identifier))
                        (seqZ 1 (Z.of_nat (S (length gaps)))))%list
  /\ Forall2 (call_counted this) (seqZ 1 (Z.of_nat (S (length gaps))))
             (inr r1 :: outs)
  /\ (forall (i : nat) r,
        (inr r1 :: outs) !! i = Some (inr r) ->
        (Z.of_nat i < RateLimiter.requestLimit this ->
         RateLimitResult.allowed r = true)
        /\ (RateLimiter.requestLimit this <= Z.of_nat i ->
            RateLimitResult.allowed r = false)).
Proof.
  intros Hno E1 E2 Hall Hlive.
  assert (Hrun : limit_calls this identifier (g :: gaps) w = (inr r1 :: outs, wN)).
  { simpl. simpl in E1. rewrite E1, E2. reflexivity. }
  assert (Hcounted :
    logged wN
    = (logged w ++ map (check_line this (RateLimiter.buildKey this identifier))
                       (seqZ 1 (Z.of_nat (S (length gaps)))))%list
    /\ Forall2 (call_counted this) (seqZ 1 (Z.of_nat (S (length gaps))))
               (inr r1 :: outs)).
  { apply limit_inr in E1 as (_ & _ & E1).
    apply fixedWindowLimit_fresh in E1 as ([x S1] & G1 & Hal & Hrem).
    2:{ simpl. apply (not_live_mono _ _ (clock w)); [|assumption].
        pose proof (N2Z.is_nonneg g). lia. }
    simpl in G1.
    destruct Hlive as [e' He']. unfold Redis.live in He'. rewrite S1 in He'.
    destruct (Redis.expired _ (clock wN)) eqn:Hexp; [discriminate|].
    destruct (limit_calls_in_window this identifier gaps w1 outs wN _ 1
                S1 (string2ll_of_Z 1) Hexp E2 Hall) as [G2 F2].
    rewrite seqZ_succ_nat. simpl. rewrite G2, G1, <- app_assoc.
    split; [reflexivity|]. constructor; [|assumption]. exists r1. auto. }
  destruct Hcounted as [Hlog Hf].
  split; [assumption|]. split; [assumption|]. split; [assumption|].
  intros i r Hi.
  destruct (Forall2_lookup_r _ _ _ _ _ Hf Hi) as (k & Hk & r' & [= <-] & Hal & _).
  apply lookup_seqZ in Hk as [-> _]. rewrite Hal.
  split; intros; [apply Z.leb_le | apply Z.leb_gt]; lia.
Qed.

(* ===================================================================== *)
(** ** Preconditions of the three methods *)
(* ===================================================================== *)

Section ClientFailures.

Lemma fails_in_client_ret {A} (a : A) : fails_in_client (ret a).
Proof. intros w e w' [=]. Qed.

Lemma fails_in_client_throw {A} msg : fails_in_client (@throw A (ClientError msg)).
Proof. intros w e w' [= <- <-]. eauto. Qed.

Lemma fails_in_client_bind {A B} (m : Async A) (f : A -> Async B) :
  fails_in_client m -> (forall a, fails_in_client (f a)) ->
  fails_in_client (bind m f).
Proof.
  intros Hm Hf w e w'. unfold bind.
  destruct (m w) as [[e1|a] w1] eqn:E.
  - intros [= <- <-]. eapply Hm; eauto.
  - intros H. eapply Hf; eauto.
Qed.

Lemma fails_in_client_send r : fails_in_client (send r).
Proof.
  intros w e w'. unfold send. destruct (delivered (next_leg w)).
  - destruct (run_request _ r (store w)). intros [=].
  - intros [= <- <-]. eauto.
Qed.

Lemma fails_in_client_info l : fails_in_client (logger_info l).
Proof. intros w e w' [=]. Qed.

Lemma fails_in_client_now : fails_in_client Date_now.
Proof. intros w e w' [=]. Qed.

Local Ltac step :=
  first
    [ apply fails_in_client_ret
    | apply fails_in_client_throw
    | apply fails_in_client_now
    | apply fails_in_client_send
    | apply fails_in_client_info
    | apply fails_in_client_bind; [|intros ?]
    | match goal with
      | |- fails_in_client (match ?x with _ => _ end) => destruct x
      end ].

Lemma fails_in_client_integer_reply c : fails_in_client (Client.integer_reply c).
Proof.
  unfold Client.integer_reply, Client.protocol_error. repeat step.
Qed.

Lemma fails_in_client_fixedWindowLimit this key :
  fails_in_client (RateLimiter.fixedWindowLimit this key).
Proof.
  unfold RateLimiter.fixedWindowLimit, Client.set, Client.incr, Client.ttl,
    Client.integer_reply, Client.protocol_error.
  repeat step.
Qed.

End ClientFailures.

(** Past its two guards, each method is its body. *)
Lemma limit_body this identifier w :
  ~ blank identifier -> available w ->
  RateLimiter.limit this identifier w
  = RateLimiter.fixedWindowLimit this (RateLimiter.buildKey this identifier) w.
Proof.
  intros Hb Ha. unfold RateLimiter.limit.
  apply guard_not_blank in Hb. rewrite Hb.
  apply available_true in Ha.
  unfold bind at 1. unfold RateLimiter.isRedisAvailable. rewrite Ha. simpl.
  destruct (RateLimiter.algorithm this). reflexivity.
Qed.

Lemma reset_body this identifier w :
  ~ blank identifier -> available w ->
  RateLimiter.reset this identifier w
  = (let* result := Client.del (RateLimiter.buildKey this identifier) in
     do* logger_info (ResetLine (RateLimiter.buildKey this identifier)) in
     ret (0 <? result)) w.
Proof.
  intros Hb Ha. unfold RateLimiter.reset.
  apply guard_not_blank in Hb. rewrite Hb.
  apply available_true in Ha.
  unfold bind at 1. unfold RateLimiter.isRedisAvailable. rewrite Ha. reflexivity.
Qed.

Lemma getStatus_body this identifier w :
  ~ blank identifier -> available w ->
  RateLimiter.getStatus this identifier w
  = (let key := RateLimiter.buildKey this identifier in
     let* results := Client.multi_exec [Redis.GET key; Redis.TTL key] in
     let currentValue := RateLimiter.as_string_or_null (results !! 0%nat) in
     let ttl := RateLimiter.as_number_or_minus_one (results !! 1%nat) in
     if (Js.not_opt_string currentValue || (ttl <? 0))%bool then ret None
     else ret (Some (WindowStatus.mk (Js.parseInt (default "" currentValue)) ttl))) w.
Proof.
  intros Hb Ha. unfold RateLimiter.getStatus.
  apply guard_not_blank in Hb. rewrite Hb.
  apply available_true in Ha.
  unfold bind at 1. unfold RateLimiter.isRedisAvailable. rewrite Ha. reflexivity.
Qed.

Lemma guards_blank {A} (body : Async A) this identifier w :
  blank identifier ->
  (if (Js.not_string identifier || String.eqb (Js.trim identifier) "")%bool
   then throw (Error "Identifier cannot be empty")
   else let* available := RateLimiter.isRedisAvailable this in
        if negb available then throw (Error "Redis client is not available")
        else body) w
  = (inl InvalidArgument, w).
Proof. intros Hb. apply guard_blank in Hb. rewrite Hb. reflexivity. Qed.

Lemma guards_unavailable {A} (body : Async A) this identifier w :
  ~ blank identifier -> ~ available w ->
  (if (Js.not_string identifier || String.eqb (Js.trim identifier) "")%bool
   then throw (Error "Identifier cannot be empty")
   else let* available := RateLimiter.isRedisAvailable this in
        if negb available then throw (Error "Redis client is not available")
        else body) w
  = (inl StoreUnavailable, w).
Proof.
  intros Hb Ha. apply guard_not_blank in Hb. rewrite Hb.
  rewrite available_true in Ha.
  unfold bind, RateLimiter.isRedisAvailable.
  destruct (isOpen w && isReady w)%bool; [congruence | reflexivity].
Qed.

(** ** C6 *)

(** C6 (preconditions, checked before any round-trip).  For each of
    [limit], [reset] and [getStatus]: a blank identifier (empty, or only
    white space) is rejected with the invalid-argument error; otherwise a
    client that is not both open and ready is rejected with the
    store-unavailable error; in both cases the world is left exactly as it
    was, so nothing was sent.  With a non-blank identifier and an
    available client, whatever exception a method ends in is neither of
    these two. *)
Theorem preconditions_checked_before_store this identifier w :
  (blank identifier ->
     RateLimiter.limit this identifier w = (inl InvalidArgument, w)
     /\ RateLimiter.reset this identifier w = (inl InvalidArgument, w)
     /\ RateLimiter.getStatus this identifier w = (inl InvalidArgument, w))
  /\ (~ blank identifier -> ~ available w ->
     RateLimiter.limit this identifier w = (inl StoreUnavailable, w)
     /\ RateLimiter.reset this identifier w = (inl StoreUnavailable, w)
     /\ RateLimiter.getStatus this identifier w = (inl StoreUnavailable, w))
  /\ (~ blank identifier -> available w ->
     forall e,
       fst (RateLimiter.limit this identifier w) = inl e
       \/ fst (RateLimiter.reset this identifier w) = inl e
       \/ fst (RateLimiter.getStatus this identifier w) = inl e ->
       e <> InvalidArgument /\ e <> StoreUnavailable).
Proof.
  split; [|split].
  - intros Hb. repeat split.
    + unfold RateLimiter.limit. destruct (RateLimiter.algorithm this).
      by apply guards_blank.
    + by apply guards_blank.
    + by apply guards_blank.
  - intros Hb Ha. repeat split.
    + unfold RateLimiter.limit. destruct (RateLimiter.algorithm this).
      by apply guards_unavailable.
    + by apply guards_unavailable.
    + by apply guards_unavailable.
  - intros Hb Ha e H.
    assert (exists msg, e = ClientError msg) as [msg ->];
      [|split; discriminate].
    destruct H as [H|[H|H]].
    + rewrite limit_body in H by assumption.
      destruct (RateLimiter.fixedWindowLimit _ _ w) as [o w'] eqn:E.
      simpl in H. subst o.
      eapply fails_in_client_fixedWindowLimit; eauto.
    + rewrite reset_body in H by assumption.
      match type of H with fst (?m w) = _ =>
        destruct (m w) as [o w'] eqn:E; simpl in H; subst o;
        assert (F : fails_in_client m)
      end.
      { apply fails_in_client_bind; [apply fails_in_client_integer_reply|].
        intros z. apply fails_in_client_bind;
          [apply fails_in_client_info | intros; apply fails_in_client_ret]. }
      eapply F; eauto.
    + rewrite getStatus_body in H by assumption.
      match type of H with fst (?m w) = _ =>
        destruct (m w) as [o w'] eqn:E; simpl in H; subst o;
        assert (F : fails_in_client m)
      end.
      { apply fails_in_client_bind; [apply fails_in_client_send|].
        intros rs. simpl.
        destruct (_ || _)%bool; apply fails_in_client_ret. }
      eapply F; eauto.
Qed.

(* ===================================================================== *)
(** ** The keyspace holds counts *)
(* ===================================================================== *)

Lemma counters_wf_empty : counters_wf ∅.
Proof. intros k e H. rewrite lookup_empty in H. discriminate. Qed.

Lemma counters_wf_insert st k n x :
  0 <= n -> counters_wf st ->
  counters_wf (<[k := Redis.mkEntry (Js.of_Z n) x]> st).
Proof.
  intros Hn Hwf k' e. rewrite lookup_insert.
  case_decide; [intros [= <-]; eauto | apply Hwf].
Qed.

Lemma counters_wf_delete st k : counters_wf st -> counters_wf (delete k st).
Proof.
  intros Hwf k' e. rewrite lookup_delete.
  case_decide; [discriminate | apply Hwf].
Qed.

Lemma live_lookup st k t e : Redis.live st k t = Some e -> st !! k = Some e.
Proof.
  unfold Redis.live. destruct (st !! k) as [e'|]; [|discriminate].
  destruct (Redis.expired e' t); congruence.
Qed.

Lemma exec_INCR_count st t k c st' :
  counters_wf st ->
  Redis.exec t (Redis.INCR k) st = (Redis.Integer c, st') ->
  1 <= c /\ counters_wf st'.
Proof.
  intros Hwf. unfold Redis.exec.
  destruct (Redis.live st k t) as [e|] eqn:L.
  - apply live_lookup in L. destruct (Hwf _ _ L) as (n & Hn & ->).
    rewrite string2ll_of_Z. intros [= <- <-].
    split; [lia | apply counters_wf_insert; [lia | assumption]].
  - intros [= <- <-]. split; [lia | by apply counters_wf_insert].
Qed.

Lemma exec_keeps_wf st t c rp st' :
  (forall k v s, c = Redis.SET_EX_NX k v s -> v = "0") ->
  counters_wf st -> Redis.exec t c st = (rp, st') -> counters_wf st'.
Proof.
  intros Hset Hwf. destruct c as [k v s|k|k|k|k]; unfold Redis.exec.
  - rewrite (Hset k v s eq_refl).
    destruct (s <=? 0); [intros [= <- <-]; assumption|].
    destruct (Redis.live st k t); intros [= <- <-]; [assumption|].
    by apply (counters_wf_insert st k 0).
  - destruct (Redis.live st k t) as [e|] eqn:L.
    + apply live_lookup in L. destruct (Hwf _ _ L) as (n & Hn & ->).
      rewrite string2ll_of_Z. intros [= <- <-].
      apply counters_wf_insert; [lia | assumption].
    + intros [= <- <-]. by apply counters_wf_insert.
  - destruct (Redis.live st k t) as [e|];
      [destruct (Redis.expireAt e)|]; intros [= <- <-]; assumption.
  - destruct (Redis.live st k t); intros [= <- <-]; assumption.
  - destruct (Redis.live st k t); intros [= <- <-];
      by apply counters_wf_delete.
Qed.

Lemma keeps_wf_preorder : PreOrder keeps_wf.
Proof. split; unfold keeps_wf; [intros w; auto | intros a b c; auto]. Qed.

Lemma send_keeps_wf this identifier r :
  issued this identifier r -> preserves keeps_wf (send r).
Proof.
  intros Hr w o w'. unfold send, keeps_wf.
  destruct (delivered (next_leg w)); [|intros [= <- <-]; auto].
  destruct (run_request _ r (store w)) as [rs st'] eqn:E.
  intros [= <- <-] Hwf. simpl.
  destruct Hr; cbn [run_request Redis.exec_all] in E.
  1-4: match type of E with
       | context [Redis.exec ?t ?c ?s] =>
           destruct (Redis.exec t c s) as [rp st1] eqn:E1
       end;
       injection E as <- <-;
       (eapply exec_keeps_wf; [|exact Hwf|exact E1]); congruence.
  destruct (Redis.exec _ (Redis.GET _) (store w)) as [rp1 st1] eqn:E1.
  destruct (Redis.exec _ (Redis.TTL _) st1) as [rp2 st2] eqn:E2.
  injection E as <- <-.
  eapply exec_keeps_wf; [|eapply exec_keeps_wf|]; [| |exact Hwf|exact E1|exact E2];
    congruence.
Qed.

Lemma logger_info_keeps_wf l : preserves keeps_wf (logger_info l).
Proof. intros w o w' [= <- <-]. unfold keeps_wf. auto. Qed.

(** The empty keyspace holds counts, and every method leaves a keyspace
    that holds counts when it found one, however it ends. *)
Lemma counters_wf_invariant this identifier w w' :
  counters_wf (store w) ->
  (forall o, RateLimiter.limit this identifier w = (o, w') -> counters_wf (store w'))
  /\ (forall o, RateLimiter.reset this identifier w = (o, w') -> counters_wf (store w'))
  /\ (forall o, RateLimiter.getStatus this identifier w = (o, w') ->
                counters_wf (store w')).
Proof.
  intros Hwf. repeat split; intros o H.
  - exact (@preserves_limit keeps_wf keeps_wf_preorder this identifier
             (send_keeps_wf this identifier) logger_info_keeps_wf w o w' H Hwf).
  - exact (@preserves_reset keeps_wf keeps_wf_preorder this identifier
             (send_keeps_wf this identifier) logger_info_keeps_wf w o w' H Hwf).
  - exact (@preserves_getStatus keeps_wf keeps_wf_preorder this identifier
             (send_keeps_wf this identifier) w o w' H Hwf).
Qed.

(** In every world a deployment can be in, the keyspace holds counts. *)
Lemma reachable_counters_wf w : reachable w -> counters_wf (store w).
Proof.
  induction 1 as [c net o r | w c net o r _ IH _
                 | this identifier w o w' _ IH H
                 | this identifier w o w' _ IH H
                 | this identifier w o w' _ IH H]; simpl.
  - apply counters_wf_empty.
  - exact IH.
  - destruct (counters_wf_invariant this identifier w w' IH) as (L & _ & _).
    eauto.
  - destruct (counters_wf_invariant this identifier w w' IH) as (_ & L & _).
    eauto.
  - destruct (counters_wf_invariant this identifier w w' IH) as (_ & _ & L).
    eauto.
Qed.

(* ===================================================================== *)
(** ** The result record of [limit] *)
(* ===================================================================== *)

Lemma answered_wire c rp w w' :
  answered c rp w w' ->
  wire w' = (wire w ++ [mkExchange (arrival w) (Single c) (Some [rp])])%list.
Proof. intros (_ & st' & _ & ->). reflexivity. Qed.

(** A call that returns made three round-trips, in this order, all after
    the clock was read; the result is computed from the replies to the
    second and the third. *)
Lemma limit_exchanges this identifier w res w' :
  RateLimiter.limit this identifier w = (inr res, w') ->
  exists rp c z t1 t2 t3,
    let key := RateLimiter.buildKey this identifier in
    wire w'
    = (wire w ++
       [mkExchange t1 (Single (Redis.SET_EX_NX key "0" (RateLimiter.window this)))
                   (Some [rp]);
        mkExchange t2 (Single (Redis.INCR key)) (Some [Redis.Integer c]);
        mkExchange t3 (Single (Redis.TTL key)) (Some [Redis.Integer z])])%list
    /\ clock w <= t1 /\ t1 <= t2 /\ t2 <= t3 /\ clock w' = t3
    /\ (counters_wf (store w) -> 1 <= c)
    /\ res = RateLimitResult.mk
               (c <=? RateLimiter.requestLimit this)
               (RateLimiter.requestLimit this)
               (Z.max 0 (RateLimiter.requestLimit this - c))
               (Js.ceil_div (if 0 <? z then clock w + z * 1000
                             else clock w + RateLimiter.window this * 1000) 1000)
               (if 0 <? z then z else RateLimiter.window this).
Proof.
  intros H. apply limit_inr in H as (_ & _ & H).
  apply fixedWindowLimit_inr in H
    as (rp & c & z & w1 & w2 & w3 & A1 & Hrp & A2 & A3 & -> & ->).
  pose proof (answered_wire _ _ _ _ A1) as X1.
  pose proof (answered_wire _ _ _ _ A2) as X2.
  pose proof (answered_wire _ _ _ _ A3) as X3.
  apply answered_store in A1 as (st1 & E1 & S1 & G1 & L1 & T1).
  apply answered_store in A2 as (st2 & E2 & S2 & G2 & L2 & T2).
  apply answered_store in A3 as (st3 & E3 & S3 & G3 & L3 & T3).
  exists rp, c, z, (arrival w), (arrival w1), (arrival w2). simpl.
  split; [rewrite X3, X2, X1, <- !app_assoc; reflexivity|].
  repeat (split; [lia|]).
  split; [|reflexivity].
  intros Hwf.
  assert (Hwf1 : counters_wf st1).
  { eapply exec_keeps_wf; [|exact Hwf|exact E1]. congruence. }
  rewrite S1 in E2. by destruct (exec_INCR_count _ _ _ _ _ Hwf1 E2).
Qed.

Lemma ceil_div_add_seconds x k :
  Js.ceil_div (x + k * 1000) 1000 = Js.ceil_div x 1000 + k.
Proof.
  unfold Js.ceil_div.
  replace (- (x + k * 1000)) with (- x + (- k) * 1000) by lia.
  rewrite Z.div_add by lia. lia.
Qed.

(** What the constructor guarantees about the instance it returns. *)
Lemma new_inr config this :
  RateLimiter.new config = inr this ->
  RateLimiterConfig.limit config = Js.Num (RateLimiter.requestLimit this)
  /\ RateLimiterConfig.window config = Js.Num (RateLimiter.window this)
  /\ RateLimiterConfig.keyPrefix config = Some (RateLimiter.keyPrefix this)
  /\ 0 < RateLimiter.requestLimit this
  /\ 0 < RateLimiter.window this
  /\ Js.trim (RateLimiter.keyPrefix this) <> "".
Proof.
  unfold RateLimiter.new, RateLimiter.validateConfig.
  destruct config as [r l wd p a]; simpl.
  destruct (Js.not_object r); [discriminate|].
  destruct l as [| |l]; simpl; try discriminate.
  destruct (l =? 0) eqn:L0; simpl; [discriminate|].
  destruct (l <=? 0) eqn:L1; [discriminate|].
  destruct wd as [| |wd]; simpl; try discriminate.
  destruct (wd =? 0) eqn:W0; simpl; [discriminate|].
  destruct (wd <=? 0) eqn:W1; [discriminate|].
  destruct p as [p|]; simpl; [|discriminate].
  destruct (Js.not_string p); simpl; [discriminate|].
  destruct (String.eqb (Js.trim p) "") eqn:P; [discriminate|].
  intros [= <-]. simpl.
  apply Z.leb_gt in L1, W1. apply String.eqb_neq in P.
  repeat split; auto.
Qed.

(** ** C3 *)

(** C3 (result arithmetic).  For a limiter made by the constructor and a
    keyspace that holds counts, every result [limit] returns is computed
    from the post-increment count [c] the store replied to [INCR]:
    [remaining = max 0 (quota - c)] and [allowed = (c <= quota)], with
    [limit] echoing the quota; so [remaining] is never negative, even when
    [c] exceeds the quota, and never exceeds [limit]. *)
Theorem limit_result_arithmetic config this identifier w res w' :
  RateLimiter.new config = inr this ->
  counters_wf (store w) ->
  RateLimiter.limit this identifier w = (inr res, w') ->
  exists x1 t c x3,
    wire w' = (wire w ++
               [x1;
                mkExchange t (Single (Redis.INCR (RateLimiter.buildKey this identifier)))
                           (Some [Redis.Integer c]);
                x3])%list
    /\ RateLimitResult.remaining res = Z.max 0 (RateLimiter.requestLimit this - c)
    /\ RateLimitResult.allowed res = (c <=? RateLimiter.requestLimit this)
    /\ RateLimitResult.limit res = RateLimiter.requestLimit this
    /\ 0 <= RateLimitResult.remaining res
    /\ RateLimitResult.remaining res <= RateLimitResult.limit res.
Proof.
  intros Hnew Hwf H.
  apply new_inr in Hnew as (_ & _ & _ & HQ & _).
  apply limit_exchanges in H
    as (rp & c & z & t1 & t2 & t3 & X & _ & _ & _ & _ & Hc & ->).
  specialize (Hc Hwf).
  eexists _, t2, c, _. split; [exact X|]. simpl.
  repeat split; lia.
Qed.

(** ** C4 *)

(** C4, as amended.  The [ttl] field of a result is the TTL the store
    replied to the call's [TTL] query when that reply is positive, and the
    configured window otherwise. *)
Theorem limit_ttl_field this identifier w res w' :
  RateLimiter.limit this identifier w = (inr res, w') ->
  exists x1 x2 t z,
    wire w' = (wire w ++
               [x1; x2;
                mkExchange t (Single (Redis.TTL (RateLimiter.buildKey this identifier)))
                           (Some [Redis.Integer z])])%list
    /\ RateLimitResult.ttl res = if 0 <? z then z else RateLimiter.window this.
Proof.
  intros H.
  apply limit_exchanges in H
    as (rp & c & z & t1 & t2 & t3 & X & _ & _ & _ & _ & _ & ->).
  eexists _, _, t3, z. split; [exact X|reflexivity].
Qed.

(** ** C5 *)

(** C5 (reset time).  The [reset] field of a result is the clock read at
    the start of the call, before the first round-trip is served, in whole
    epoch seconds (rounded up), plus the TTL the store replied when that
    is positive, plus the configured window otherwise. *)
Theorem limit_reset_field this identifier w res w' :
  RateLimiter.limit this identifier w = (inr res, w') ->
  exists x1 x2 t z,
    wire w' = (wire w ++
               [x1; x2;
                mkExchange t (Single (Redis.TTL (RateLimiter.buildKey this identifier)))
                           (Some [Redis.Integer z])])%list
    /\ clock w <= servedAt x1
    /\ RateLimitResult.reset res
       = Js.ceil_div (clock w) 1000
         + (if 0 <? z then z else RateLimiter.window this).
Proof.
  intros H.
  apply limit_exchanges in H
    as (rp & c & z & t1 & t2 & t3 & X & L1 & _ & _ & _ & _ & ->).
  eexists _, _, t3, z. split; [exact X|]. split; [exact L1|]. simpl.
  destruct (0 <? z); apply ceil_div_add_seconds.
Qed.

(** ** C10 *)

(** C10 (positive ttl).  For a limiter made by the constructor, the [ttl]
    field of every result [limit] returns is strictly positive. *)
Theorem limit_ttl_positive config this identifier w res w' :
  RateLimiter.new config = inr this ->
  RateLimiter.limit this identifier w = (inr res, w') ->
  0 < RateLimitResult.ttl res.
Proof.
  intros Hnew H.
  apply new_inr in Hnew as (_ & _ & _ & _ & HW & _).
  apply limit_exchanges in H
    as (rp & c & z & t1 & t2 & t3 & _ & _ & _ & _ & _ & _ & ->).
  simpl. destruct (0 <? z) eqn:Z; [apply Z.ltb_lt in Z|]; lia.
Qed.

(* ===================================================================== *)
(** ** When the methods return *)
(* ===================================================================== *)

Lemma legs_delivered_S n w :
  legs_delivered (S n) w ->
  delivered (next_leg w) = true
  /\ forall st x, legs_delivered n (after_send w st x).
Proof.
  unfold legs_delivered, next_leg, after_send. simpl.
  destruct (network w) as [|l ls]; simpl.
  - intros _. split; [reflexivity|]. intros _ _. rewrite take_nil. constructor.
  - intros H. apply Forall_cons in H as [Hl Hls]. auto.
Qed.

Lemma integer_reply_returns c w z st' :
  delivered (next_leg w) = true ->
  Redis.exec (arrival w) c (store w) = (Redis.Integer z, st') ->
  Client.integer_reply c w
  = (inr z, after_send w st' (mkExchange (arrival w) (Single c)
                                         (Some [Redis.Integer z]))).
Proof.
  intros D E. unfold Client.integer_reply, bind, send, arrival in *.
  rewrite D. simpl. rewrite E. reflexivity.
Qed.

Lemma set_returns k v s w :
  0 < s ->
  delivered (next_leg w) = true ->
  exists o rp st',
    Client.set k v s w
    = (inr o, after_send w st' (mkExchange (arrival w)
                                           (Single (Redis.SET_EX_NX k v s))
                                           (Some [rp])))
    /\ Redis.exec (arrival w) (Redis.SET_EX_NX k v s) (store w) = (rp, st').
Proof.
  intros Hs D. unfold Client.set, bind, send, arrival in *.
  rewrite D. simpl.
  destruct (s <=? 0) eqn:S0; [apply Z.leb_le in S0; lia|].
  destruct (Redis.live _ _ _); eexists _, _, _; split; reflexivity.
Qed.

Lemma exec_INCR_reply st t k :
  counters_wf st ->
  exists c st', Redis.exec t (Redis.INCR k) st = (Redis.Integer c, st').
Proof.
  intros Hwf. unfold Redis.exec.
  destruct (Redis.live st k t) as [e|] eqn:L; [|eauto].
  apply live_lookup in L. destruct (Hwf _ _ L) as (n & Hn & ->).
  rewrite string2ll_of_Z. eauto.
Qed.

Lemma exec_TTL_reply st t k :
  exists z, Redis.exec t (Redis.TTL k) st = (Redis.Integer z, st).
Proof.
  unfold Redis.exec. destruct (Redis.live st k t) as [e|];
    [destruct (Redis.expireAt e)|]; eauto.
Qed.

(** [limit] returns a result whenever its preconditions hold, the window
    is positive, the keyspace holds counts and the network delivers the
    three round-trips. *)
Lemma limit_returns this identifier w :
  ~ blank identifier -> available w ->
  0 < RateLimiter.window this ->
  counters_wf (store w) ->
  legs_delivered 3 w ->
  exists res w', RateLimiter.limit this identifier w = (inr res, w').
Proof.
  intros Hb Ha HW Hwf Hlegs.
  rewrite limit_body by assumption.
  unfold RateLimiter.fixedWindowLimit, bind, Date_now.
  apply legs_delivered_S in Hlegs as [D1 Hlegs].
  destruct (set_returns (RateLimiter.buildKey this identifier) "0" _ w HW D1)
    as (o & rp & st1 & -> & E1).
  assert (Hwf1 : counters_wf st1).
  { eapply exec_keeps_wf; [|exact Hwf|exact E1]. congruence. }
  match goal with |- context [Client.incr _ ?w1] => set (w1' := w1) end.
  specialize (Hlegs st1 (mkExchange (arrival w)
    (Single (Redis.SET_EX_NX (RateLimiter.buildKey this identifier) "0"
                             (RateLimiter.window this))) (Some [rp]))).
  fold w1' in Hlegs.
  apply legs_delivered_S in Hlegs as [D2 Hlegs].
  destruct (exec_INCR_reply st1 (arrival w1')
              (RateLimiter.buildKey this identifier) Hwf1) as (c & st2 & E2).
  unfold Client.incr.
  rewrite (integer_reply_returns _ w1' c st2 D2 E2).
  match goal with |- context [Client.ttl _ ?w2] => set (w2' := w2) end.
  specialize (Hlegs st2 (mkExchange (arrival w1')
    (Single (Redis.INCR (RateLimiter.buildKey this identifier)))
    (Some [Redis.Integer c]))).
  fold w2' in Hlegs.
  apply legs_delivered_S in Hlegs as [D3 _].
  destruct (exec_TTL_reply st2 (arrival w2')
              (RateLimiter.buildKey this identifier)) as (z & E3).
  unfold Client.ttl.
  rewrite (integer_reply_returns _ w2' z st2 D3 E3).
  unfold logger_info, ret. eauto.
Qed.

(* ===================================================================== *)
(** ** Construction *)
(* ===================================================================== *)

Lemma number_guard v :
  (Js.not_number v || Js.le_zero v)%bool = true <-> ~ positive_number v.
Proof.
  destruct v as [| |z]; simpl; [intuition | intuition |].
  rewrite orb_true_iff, Z.eqb_eq, Z.leb_le. lia.
Qed.

Lemma prefix_guard p :
  (Js.not_opt_string p || String.eqb (Js.trim (default "" p)) "")%bool = true
  <-> namespace_missing p.
Proof.
  destruct p as [s|]; simpl; [|intuition].
  rewrite orb_true_iff, String.eqb_eq.
  destruct s; simpl; intuition congruence.
Qed.

Lemma validateConfig_inl config :
  (exists e, RateLimiter.validateConfig config = inl e)
  <-> (RateLimiterConfig.redis config = None
       \/ ~ positive_number (RateLimiterConfig.limit config)
       \/ ~ positive_number (RateLimiterConfig.window config)
       \/ namespace_missing (RateLimiterConfig.keyPrefix config)).
Proof.
  unfold RateLimiter.validateConfig.
  destruct config as [r l wd p a]; simpl.
  destruct r as [r|]; simpl; [|split; eauto].
  pose proof (number_guard l) as Gl. destruct (_ || _)%bool.
  { split; [intros _; right; left; by apply Gl | eauto]. }
  pose proof (number_guard wd) as Gw. destruct (_ || _)%bool.
  { split; [intros _; right; right; left; by apply Gw | eauto]. }
  pose proof (prefix_guard p) as Gp. destruct (_ || _)%bool.
  { split; [intros _; right; right; right; by apply Gp | eauto]. }
  split; [intros [e [=]]|].
  intros [?|[?|[?|?]]]; try discriminate;
    [apply Gl in H | apply Gw in H | apply Gp in H]; discriminate.
Qed.

(** ** C7 *)

(** C7, as amended.  Construction fails if and only if the client is
    absent, or the quota is not a positive number, or the window is not a
    positive number, or the key prefix is absent or trims to the empty
    string; otherwise it succeeds, and the instance carries the quota, the
    window and the prefix of the configuration. *)
Theorem construction_fails_iff config :
  ((exists e, RateLimiter.new config = inl e)
   <-> (RateLimiterConfig.redis config = None
        \/ ~ positive_number (RateLimiterConfig.limit config)
        \/ ~ positive_number (RateLimiterConfig.window config)
        \/ namespace_missing (RateLimiterConfig.keyPrefix config)))
  /\ ((exists this, RateLimiter.new config = inr this)
      <-> ~ (RateLimiterConfig.redis config = None
             \/ ~ positive_number (RateLimiterConfig.limit config)
             \/ ~ positive_number (RateLimiterConfig.window config)
             \/ namespace_missing (RateLimiterConfig.keyPrefix config)))
  /\ (forall this,
        RateLimiter.new config = inr this ->
        RateLimiterConfig.limit config = Js.Num (RateLimiter.requestLimit this)
        /\ RateLimiterConfig.window config = Js.Num (RateLimiter.window this)
        /\ RateLimiterConfig.keyPrefix config = Some (RateLimiter.keyPrefix this)).
Proof.
  pose proof (validateConfig_inl config) as V.
  assert (F : (exists e, RateLimiter.new config = inl e)
              <-> (exists e, RateLimiter.validateConfig config = inl e)).
  { unfold RateLimiter.new.
    destruct (RateLimiter.validateConfig config) as [e|[]];
      split; intros [e' H]; eauto; discriminate. }
  split; [rewrite F; exact V|]. split.
  - rewrite <- V, <- F. split.
    + intros [this H] [e H']. congruence.
    + intros H. destruct (RateLimiter.new config) as [e|this]; [|eauto].
      exfalso. eauto.
  - intros this H. apply new_inr in H. tauto.
Qed.

(** C7, as stated, fails: with the client left out and the quota, the
    window and the prefix all valid, construction still throws. *)
Lemma construction_fails_without_client :
  ~ ((exists e, RateLimiter.new config_without_client = inl e)
     <-> (~ positive_number (RateLimiterConfig.limit config_without_client)
          \/ ~ positive_number (RateLimiterConfig.window config_without_client)
          \/ namespace_missing (RateLimiterConfig.keyPrefix config_without_client))).
Proof.
  intros [H _].
  destruct H as [H|[H|H]].
  - exists (Error "Redis client is required"). reflexivity.
  - apply H. simpl. lia.
  - apply H. simpl. lia.
  - simpl in H. discriminate.
Qed.

Lemma construction_fails_iff_witness :
  exists this, RateLimiter.new demo_config = inr this
    /\ RateLimiterConfig.limit demo_config = Js.Num (RateLimiter.requestLimit this).
Proof.
  exists demo_limiter. split; [reflexivity|].
  apply (construction_fails_iff demo_config). reflexivity.
Defined.

(* ===================================================================== *)
(** ** The key on the wire *)
(* ===================================================================== *)

Lemma extends_wire_preorder key : PreOrder (extends_wire key).
Proof.
  split.
  - intros w. exists []. rewrite app_nil_r. split; [reflexivity|constructor].
  - intros a b c (xs & Hb & Hxs) (ys & Hc & Hys).
    exists (xs ++ ys)%list. rewrite Hc, Hb, app_assoc. split; [reflexivity|].
    apply Forall_app; auto.
Qed.

Lemma send_extends_wire this identifier r :
  issued this identifier r ->
  preserves (extends_wire (RateLimiter.buildKey this identifier)) (send r).
Proof.
  intros Hr w o w'. unfold send, extends_wire.
  assert (K : Forall (eq (RateLimiter.buildKey this identifier)) (request_keys r))
    by (destruct Hr; repeat constructor).
  destruct (delivered (next_leg w)).
  - destruct (run_request _ r (store w)). intros [= <- <-]. simpl.
    eexists. split; [reflexivity|]. repeat constructor. exact K.
  - intros [= <- <-]. simpl.
    eexists. split; [reflexivity|]. repeat constructor. exact K.
Qed.

Lemma logger_info_extends_wire key l : preserves (extends_wire key) (logger_info l).
Proof.
  intros w o w' [= <- <-]. exists []. simpl. rewrite app_nil_r.
  split; [reflexivity|constructor].
Qed.

(** ** C1 *)

(** C1, as amended.  The key under which [limit], [reset] and [getStatus]
    talk to the store is the literal "ratelimit:", then the key prefix,
    then ":", then the identifier, with nothing else before, between or
    after: however a call ends, every command it put on the wire is about
    that key. *)
Theorem store_key_is_prefixed this identifier w w' :
  let key := "ratelimit:" +:+ RateLimiter.keyPrefix this +:+ ":" +:+ identifier in
  RateLimiter.buildKey this identifier = key
  /\ (forall o, RateLimiter.limit this identifier w = (o, w') ->
                extends_wire key w w')
  /\ (forall o, RateLimiter.reset this identifier w = (o, w') ->
                extends_wire key w w')
  /\ (forall o, RateLimiter.getStatus this identifier w = (o, w') ->
                extends_wire key w w').
Proof.
  intros key. split; [reflexivity|].
  repeat split; intros o H.
  - exact (@preserves_limit _ (extends_wire_preorder key) this identifier
             (send_extends_wire this identifier)
             (logger_info_extends_wire key) w o w' H).
  - exact (@preserves_reset _ (extends_wire_preorder key) this identifier
             (send_extends_wire this identifier)
             (logger_info_extends_wire key) w o w' H).
  - exact (@preserves_getStatus _ (extends_wire_preorder key) this identifier
             (send_extends_wire this identifier) w o w' H).
Qed.

(** C1, as stated, fails: the key is not the prefix, ":" and the
    identifier alone; the first command of a call shows it. *)
Lemma store_key_is_not_bare :
  RateLimiter.buildKey demo_limiter "user-123" <> "test" +:+ ":" +:+ "user-123"
  /\ sent <$> head (wire (snd (RateLimiter.limit demo_limiter "user-123" demo_world)))
     = Some (Single (Redis.SET_EX_NX "ratelimit:test:user-123" "0" 60)).
Proof. split; [discriminate | vm_compute; reflexivity]. Qed.

(* ===================================================================== *)
(** ** [reset] *)
(* ===================================================================== *)

(** What one [reset] does when the command is delivered. *)
Lemma reset_run this identifier w :
  ~ blank identifier -> available w -> delivered (next_leg w) = true ->
  let key := RateLimiter.buildKey this identifier in
  let n := match Redis.live (store w) key (arrival w) with
           | Some _ => 1
           | None => 0
           end in
  RateLimiter.reset this identifier w
  = (inr (0 <? n),
     with_line (after_send w (delete key (store w))
                           (mkExchange (arrival w) (Single (Redis.DEL key))
                                       (Some [Redis.Integer n])))
               (ResetLine key)).
Proof.
  intros Hb Ha D key n. rewrite reset_body by assumption.
  unfold bind, Client.del.
  rewrite (integer_reply_returns _ w n (delete key (store w)) D).
  - reflexivity.
  - unfold Redis.exec. subst n. fold key.
    destruct (Redis.live (store w) key (arrival w)); reflexivity.
Qed.

(** ** C8 *)

(** C8 (reset).  With a non-blank identifier, an available client and a
    network that delivers: [reset] removes the key of the identifier from
    the keyspace and returns true exactly when the key was there at the
    time the command was served; and when the identifier has no active
    window, two [reset] calls in a row both return false. *)
Theorem reset_reports_removal this identifier w :
  ~ blank identifier -> available w ->
  let key := RateLimiter.buildKey this identifier in
  (delivered (next_leg w) = true ->
   exists b w',
     RateLimiter.reset this identifier w = (inr b, w')
     /\ (b = true <-> is_Some (Redis.live (store w) key (arrival w)))
     /\ store w' = delete key (store w)
     /\ store w' !! key = None)
  /\ (Redis.live (store w) key (clock w) = None ->
      legs_delivered 2 w ->
      exists w1 w2,
        RateLimiter.reset this identifier w = (inr false, w1)
        /\ RateLimiter.reset this identifier w1 = (inr false, w2)).
Proof.
  intros Hb Ha key. split.
  - intros D. rewrite (reset_run this identifier w Hb Ha D). fold key.
    eexists _, _. split; [reflexivity|]. simpl.
    split; [|split; [reflexivity | apply lookup_delete_eq]].
    destruct (Redis.live (store w) key (arrival w)); simpl.
    + split; eauto.
    + split; [discriminate | intros [? [=]]].
  - intros Hno Hlegs.
    apply legs_delivered_S in Hlegs as [D1 Hlegs].
    rewrite (reset_run this identifier w Hb Ha D1). fold key.
    assert (L1 : Redis.live (store w) key (arrival w) = None).
    { apply (not_live_mono _ _ (clock w)); [|assumption].
      unfold arrival. pose proof (N2Z.is_nonneg (delay (next_leg w))). lia. }
    rewrite L1. simpl.
    eexists _, _. split; [reflexivity|].
    match goal with |- RateLimiter.reset _ _ ?w1 = _ => set (w1' := w1) end.
    assert (D2 : delivered (next_leg w1') = true).
    { specialize (Hlegs (delete key (store w))
        (mkExchange (arrival w) (Single (Redis.DEL key)) (Some [Redis.Integer 0]))).
      apply legs_delivered_S in Hlegs as [D2 _]. exact D2. }
    rewrite (reset_run this identifier w1' Hb Ha D2). fold key.
    assert (L2 : Redis.live (store w1') key (arrival w1') = None).
    { unfold Redis.live. simpl. rewrite lookup_delete_eq. reflexivity. }
    rewrite L2. reflexivity.
Qed.

(* ===================================================================== *)
(** ** [getStatus] *)
(* ===================================================================== *)

(** What one [getStatus] does when the transaction is delivered: the
    keyspace and the log are left alone, and the answer is [null] when the
    key is not there, when its value is empty, or when the TTL the store
    reports is not positive. *)
Lemma getStatus_run this identifier w :
  ~ blank identifier -> available w -> delivered (next_leg w) = true ->
  let key := RateLimiter.buildKey this identifier in
  let t := arrival w in
  exists rs,
    RateLimiter.getStatus this identifier w
    = (inr match Redis.live (store w) key t with
           | None => None
           | Some e =>
               let z := match Redis.expireAt e with
                        | Some x => (x - t + 500) / 1000
                        | None => -1
                        end in
               if (Js.not_string (Redis.value e) || (z <=? 0))%bool then None
               else Some (WindowStatus.mk (Js.parseInt (Redis.value e)) z)
           end,
       after_send w (store w)
                  (mkExchange t (Multi [Redis.GET key; Redis.TTL key]) (Some rs))).
Proof.
  intros Hb Ha D key t. rewrite getStatus_body by assumption. fold key.
  unfold bind, Client.multi_exec, send. rewrite D. fold (arrival w). fold t.
  cbn [run_request Redis.exec_all]. unfold Redis.exec.
  destruct (Redis.live (store w) key t) as [e|] eqn:L; rewrite ?L.
  - destruct (Redis.expireAt e) as [x|]; eexists; simpl.
    + destruct (Js.not_string (Redis.value e)); simpl; [reflexivity|].
      destruct ((x - t + 500) / 1000 =? 0) eqn:Z0.
      * apply Z.eqb_eq in Z0. rewrite Z0. reflexivity.
      * apply Z.eqb_neq in Z0.
        destruct ((x - t + 500) / 1000 <? 0) eqn:Z1;
          destruct ((x - t + 500) / 1000 <=? 0) eqn:Z2; try reflexivity;
          [apply Z.ltb_lt in Z1; apply Z.leb_gt in Z2
          |apply Z.ltb_ge in Z1; apply Z.leb_le in Z2]; lia.
    + destruct (Js.not_string (Redis.value e)); reflexivity.
  - eexists. reflexivity.
Qed.

(** On a keyspace that holds counts, [getStatus] answers with the count
    and the reported TTL of a key that is there with at least half a
    second to live, and with [null] in every other case. *)
Lemma getStatus_snapshot this identifier w :
  ~ blank identifier -> available w -> delivered (next_leg w) = true ->
  counters_wf (store w) ->
  let key := RateLimiter.buildKey this identifier in
  let t := arrival w in
  exists o w',
    RateLimiter.getStatus this identifier w = (inr o, w')
    /\ store w' = store w /\ logged w' = logged w
    /\ match Redis.live (store w) key t with
       | None => o = None
       | Some e =>
           exists n, Redis.value e = Js.of_Z n /\
             match Redis.expireAt e with
             | None => o = None
             | Some x =>
                 if x - t <? 500 then o = None
                 else o = Some (WindowStatus.mk (Some n) ((x - t + 500) / 1000))
             end
       end.
Proof.
  intros Hb Ha D Hwf key t.
  destruct (getStatus_run this identifier w Hb Ha D) as [rs ->].
  fold key. fold t.
  eexists _, _. split; [reflexivity|]. split; [reflexivity|].
  split; [reflexivity|].
  destruct (Redis.live (store w) key t) as [e|] eqn:L; [|reflexivity].
  apply live_lookup in L. destruct (Hwf _ _ L) as (n & Hn & V).
  exists n. split; [assumption|]. rewrite V, of_Z_nonempty, parseInt_of_Z. simpl.
  destruct (Redis.expireAt e) as [x|]; [|reflexivity].
  destruct (x - t <? 500) eqn:X.
  - apply Z.ltb_lt in X.
    assert ((x - t + 500) / 1000 <= 0) as Z0
        by (apply Z.lt_succ_r, Z.div_lt_upper_bound; lia).
    apply Z.leb_le in Z0. rewrite Z0. reflexivity.
  - apply Z.ltb_ge in X.
    assert (0 < (x - t + 500) / 1000) as Z0
        by (apply Z.div_str_pos; lia).
    apply Z.leb_gt in Z0. rewrite Z0. reflexivity.
Qed.

(** ** C9 *)

(** C9, at the input where the code leaves it.  Three [limit] calls open a
    window and count to 3; 59.7 seconds later the key is still there with
    300 ms to live, the store replies its value and a TTL of 0, which is
    neither negative nor absent, and [getStatus] answers [null]. *)
Theorem getStatus_null_with_active_window :
  let w1 := snd (limit_calls demo_limiter "user-123" [0%N; 0%N; 0%N] demo_world) in
  let w2 := snd (sleep 59700 w1) in
  let out := RateLimiter.getStatus demo_limiter "user-123" w2 in
  Redis.live (store w2) "ratelimit:test:user-123" (clock w2)
  = Some (Redis.mkEntry "3" (Some 1700000060123))
  /\ clock w2 = 1700000059823
  /\ answer <$> last (wire (snd out))
     = Some (Some [Redis.Bulk "3"; Redis.Integer 0])
  /\ fst out = inr None.
Proof. repeat split; vm_compute; reflexivity. Qed.


(* ===================================================================== *)
(** ** The scenarios of the specification, run *)
(* ===================================================================== *)

(** Eleven calls at once under a quota of 10: the counts run from 1 to 11,
    ten calls are allowed and the eleventh is not. *)
Lemma limit_counts_calls_in_window_witness :
  exists r1 outs wN,
    limit_calls demo_limiter "user-123" (0%N :: repeat 0%N 10) demo_world
    = (inr r1 :: outs, wN)
    /\ logged wN
       = (logged demo_world
          ++ map (check_line demo_limiter (RateLimiter.buildKey demo_limiter "user-123"))
                 (seqZ 1 (Z.of_nat (S (length (repeat 0%N 10))))))%list
    /\ Forall2 (call_counted demo_limiter)
               (seqZ 1 (Z.of_nat (S (length (repeat 0%N 10)))))
               (inr r1 :: outs)
    /\ (forall (i : nat) r,
          (inr r1 :: outs) !! i = Some (inr r) ->
          (Z.of_nat i < RateLimiter.requestLimit demo_limiter ->
           RateLimitResult.allowed r = true)
          /\ (RateLimiter.requestLimit demo_limiter <= Z.of_nat i ->
              RateLimitResult.allowed r = false)).
Proof.
  eexists _, _, _.
  eapply limit_counts_calls_in_window.
  - vm_compute. reflexivity.
  - vm_compute. reflexivity.
  - vm_compute. reflexivity.
  - repeat (constructor; [eexists; reflexivity|]). constructor.
  - vm_compute. eexists. reflexivity.
Defined.

Lemma limit_result_arithmetic_witness :
  exists res w',
    RateLimiter.limit demo_limiter "user-123" demo_world = (inr res, w')
    /\ 0 <= RateLimitResult.remaining res <= RateLimitResult.limit res.
Proof.
  destruct (RateLimiter.limit demo_limiter "user-123" demo_world)
    as [[e|res] w'] eqn:E; [vm_compute in E; discriminate|].
  exists res, w'. split; [reflexivity|].
  destruct (limit_result_arithmetic demo_config demo_limiter "user-123"
              demo_world res w' eq_refl counters_wf_empty E)
    as (x1 & t & c & x3 & _ & _ & _ & _ & H0 & H1).
  split; assumption.
Defined.

Lemma limit_ttl_field_witness :
  exists res w',
    RateLimiter.limit demo_limiter "user-123" demo_world = (inr res, w')
    /\ exists x1 x2 t z,
         wire w' = [x1; x2;
                    mkExchange t (Single (Redis.TTL "ratelimit:test:user-123"))
                               (Some [Redis.Integer z])]
         /\ RateLimitResult.ttl res = if 0 <? z then z else 60.
Proof.
  destruct (RateLimiter.limit demo_limiter "user-123" demo_world)
    as [[e|res] w'] eqn:E; [vm_compute in E; discriminate|].
  exists res, w'. split; [reflexivity|].
  exact (limit_ttl_field demo_limiter "user-123" demo_world res w' E).
Defined.

Lemma limit_reset_field_witness :
  exists res w',
    RateLimiter.limit demo_limiter "user-123" demo_world = (inr res, w')
    /\ exists z, RateLimitResult.reset res
                 = Js.ceil_div 1700000000123 1000 + (if 0 <? z then z else 60).
Proof.
  destruct (RateLimiter.limit demo_limiter "user-123" demo_world)
    as [[e|res] w'] eqn:E; [vm_compute in E; discriminate|].
  exists res, w'. split; [reflexivity|].
  destruct (limit_reset_field demo_limiter "user-123" demo_world res w' E)
    as (x1 & x2 & t & z & _ & _ & H).
  exists z. exact H.
Defined.

Lemma limit_ttl_positive_witness :
  exists res w',
    RateLimiter.limit demo_limiter "user-123" demo_world = (inr res, w')
    /\ 0 < RateLimitResult.ttl res.
Proof.
  destruct (RateLimiter.limit demo_limiter "user-123" demo_world)
    as [[e|res] w'] eqn:E; [vm_compute in E; discriminate|].
  exists res, w'. split; [reflexivity|].
  exact (limit_ttl_positive demo_config demo_limiter "user-123" demo_world
           res w' eq_refl E).
Defined.

(** C4, as stated, fails: a second call 59.8 seconds into the window gets
    the TTL 0 from the store and returns the [ttl] 60. *)
Lemma limit_ttl_is_not_store_ttl :
  let w1 := snd (RateLimiter.limit demo_limiter "user-123" demo_world) in
  let out := RateLimiter.limit demo_limiter "user-123" (snd (sleep 59800 w1)) in
  exists res z,
    fst out = inr res
    /\ last (wire (snd out))
       = Some (mkExchange 1700000059923
                          (Single (Redis.TTL "ratelimit:test:user-123"))
                          (Some [Redis.Integer z]))
    /\ z = 0
    /\ RateLimitResult.ttl res = 60
    /\ RateLimitResult.ttl res <> z.
Proof.
  eexists _, _. split; [vm_compute; reflexivity|].
  split; [vm_compute; reflexivity|].
  split; [reflexivity|]. split; [reflexivity|]. discriminate.
Qed.

Lemma user_123_not_blank : ~ blank "user-123".
Proof. intros [H|H]; vm_compute in H; discriminate. Qed.

Lemma demo_world_available : available demo_world.
Proof. split; reflexivity. Qed.

(** A blank identifier is refused first, then an unready client, and the
    world is untouched in both cases. *)
Lemma preconditions_checked_before_store_witness :
  RateLimiter.limit demo_limiter "  " offline_world
  = (inl InvalidArgument, offline_world)
  /\ RateLimiter.getStatus demo_limiter "user-123" offline_world
     = (inl StoreUnavailable, offline_world).
Proof.
  split.
  - destruct (preconditions_checked_before_store demo_limiter "  " offline_world)
      as (H & _ & _).
    apply H. right. vm_compute. reflexivity.
  - destruct (preconditions_checked_before_store demo_limiter "user-123"
                offline_world) as (_ & H & _).
    apply H; [exact user_123_not_blank|].
    intros [_ H']. vm_compute in H'. discriminate.
Defined.

(** With no window for the identifier, two resets in a row return false. *)
Lemma reset_reports_removal_witness :
  exists w1 w2,
    RateLimiter.reset demo_limiter "user-123" demo_world = (inr false, w1)
    /\ RateLimiter.reset demo_limiter "user-123" w1 = (inr false, w2).
Proof.
  destruct (reset_reports_removal demo_limiter "user-123" demo_world
              user_123_not_blank demo_world_available) as [_ H].
  apply H; [vm_compute; reflexivity | constructor].
Defined.

(** After two calls, as in the test-suite, [reset] returns true and the
    next call starts a fresh window. *)
Lemma reset_after_two_calls :
  let w2 := snd (limit_calls demo_limiter "user-123" [0%N; 0%N] demo_world) in
  let r := RateLimiter.reset demo_limiter "user-123" w2 in
  fst r = inr true
  /\ RateLimitResult.remaining
       <$> (match fst (RateLimiter.limit demo_limiter "user-123" (snd r)) with
            | inr res => Some res
            | inl _ => None
            end)
     = Some 9.
Proof. split; vm_compute; reflexivity. Qed.

(** Every command of a call is about the prefixed key. *)
Lemma store_key_is_prefixed_witness :
  extends_wire ("ratelimit:" +:+ RateLimiter.keyPrefix demo_limiter +:+ ":"
                +:+ "user-123")
               demo_world
               (snd (RateLimiter.limit demo_limiter "user-123" demo_world)).
Proof.
  destruct (store_key_is_prefixed demo_limiter "user-123" demo_world
              (snd (RateLimiter.limit demo_limiter "user-123" demo_world)))
    as (_ & H & _).
  apply (H (fst (RateLimiter.limit demo_limiter "user-123" demo_world))).
  apply surjective_pairing.
Defined.

(* ===================================================================== *)
(** ** Identifiers and keys *)
(* ===================================================================== *)

Lemma append_inj_r (p a b : string) : p +:+ a = p +:+ b -> a = b.
Proof. induction p as [|c p IH]; simpl; [auto | intros [= H]; auto]. Qed.

Lemma append_assoc (a b c : string) : (a +:+ b) +:+ c = a +:+ (b +:+ c).
Proof.
  induction a as [|x a IH]; [reflexivity|].
  change (String x ((a +:+ b) +:+ c) = String x (a +:+ (b +:+ c))).
  f_equal. exact IH.
Qed.

Lemma buildKey_inj this a b :
  RateLimiter.buildKey this a = RateLimiter.buildKey this b -> a = b.
Proof.
  unfold RateLimiter.buildKey. intros H.
  do 3 apply append_inj_r in H. exact H.
Qed.

Lemma same_elsewhere_preorder key : PreOrder (same_elsewhere key).
Proof.
  split.
  - intros w k _. reflexivity.
  - intros a b c Hab Hbc k Hk. rewrite Hbc, Hab by assumption. reflexivity.
Qed.

Lemma exec_other_keys t c st rp st' k :
  Redis.exec t c st = (rp, st') -> k <> command_key c -> st' !! k = st !! k.
Proof.
  intros E Hk. destruct c as [k0 v s|k0|k0|k0|k0]; simpl in Hk;
    unfold Redis.exec in E.
  - destruct (s <=? 0); [by injection E as _ <-|].
    destruct (Redis.live st k0 t); injection E as _ <-; [reflexivity|].
    by apply lookup_insert_ne.
  - destruct (Redis.live st k0 t) as [e|].
    + destruct (Redis.string2ll (Redis.value e)); injection E as _ <-;
        [by apply lookup_insert_ne | reflexivity].
    + injection E as _ <-. by apply lookup_insert_ne.
  - destruct (Redis.live st k0 t) as [e|];
      [destruct (Redis.expireAt e)|]; by injection E as _ <-.
  - destruct (Redis.live st k0 t); by injection E as _ <-.
  - destruct (Redis.live st k0 t); injection E as _ <-;
      by apply lookup_delete_ne.
Qed.

Lemma send_same_elsewhere this identifier r :
  issued this identifier r ->
  preserves (same_elsewhere (RateLimiter.buildKey this identifier)) (send r).
Proof.
  intros Hr w o w'. unfold send, same_elsewhere.
  destruct (delivered (next_leg w)); [|intros [= <- <-]; auto].
  destruct (run_request _ r (store w)) as [rs st'] eqn:E.
  intros [= <- <-] k Hk. simpl.
  destruct Hr; cbn [run_request Redis.exec_all] in E.
  1-4: match type of E with
       | context [Redis.exec ?t ?c ?s] =>
           destruct (Redis.exec t c s) as [rp st1] eqn:E1
       end;
       injection E as <- <-;
       apply (exec_other_keys _ _ _ _ _ k E1); simpl; congruence.
  destruct (Redis.exec _ (Redis.GET _) (store w)) as [rp1 st1] eqn:E1.
  destruct (Redis.exec _ (Redis.TTL _) st1) as [rp2 st2] eqn:E2.
  injection E as <- <-.
  rewrite (exec_other_keys _ _ _ _ _ k E2), (exec_other_keys _ _ _ _ _ k E1);
    simpl; congruence.
Qed.

Lemma logger_info_same_elsewhere key l :
  preserves (same_elsewhere key) (logger_info l).
Proof. intros w o w' [= <- <-] k _. reflexivity. Qed.

(** X1 (isolation of identifiers).  Under one limiter, a call of [limit],
    [reset] or [getStatus] for an identifier leaves the counter of every
    other identifier exactly as it was, however the call ends. *)
Theorem calls_leave_other_identifiers_alone this a b w w' :
  a <> b ->
  (forall o, RateLimiter.limit this a w = (o, w') ->
             store w' !! RateLimiter.buildKey this b
             = store w !! RateLimiter.buildKey this b)
  /\ (forall o, RateLimiter.reset this a w = (o, w') ->
                store w' !! RateLimiter.buildKey this b
                = store w !! RateLimiter.buildKey this b)
  /\ (forall o, RateLimiter.getStatus this a w = (o, w') ->
                store w' !! RateLimiter.buildKey this b
                = store w !! RateLimiter.buildKey this b).
Proof.
  intros Hab.
  assert (Hk : RateLimiter.buildKey this b <> RateLimiter.buildKey this a)
    by (intros H; apply buildKey_inj in H; congruence).
  repeat split; intros o H.
  - exact (@preserves_limit _ (same_elsewhere_preorder _) this a
             (send_same_elsewhere this a)
             (logger_info_same_elsewhere _) w o w' H _ Hk).
  - exact (@preserves_reset _ (same_elsewhere_preorder _) this a
             (send_same_elsewhere this a)
             (logger_info_same_elsewhere _) w o w' H _ Hk).
  - exact (@preserves_getStatus _ (same_elsewhere_preorder _) this a
             (send_same_elsewhere this a) w o w' H _ Hk).
Qed.

Lemma calls_leave_other_identifiers_alone_witness :
  store (snd (RateLimiter.limit demo_limiter "user-123" demo_world))
    !! RateLimiter.buildKey demo_limiter "user-456"
  = store demo_world !! RateLimiter.buildKey demo_limiter "user-456".
Proof.
  destruct (calls_leave_other_identifiers_alone demo_limiter
              "user-123" "user-456" demo_world
              (snd (RateLimiter.limit demo_limiter "user-123" demo_world)))
    as (H & _ & _); [discriminate|].
  apply (H (fst (RateLimiter.limit demo_limiter "user-123" demo_world))).
  apply surjective_pairing.
Defined.

(** X2 (keys of one limiter, keys of two).  Under one limiter distinct
    identifiers have distinct keys.  Across limiters the key does not keep
    prefix and identifier apart: the prefix [p:i] with the identifier [j]
    and the prefix [p] with the identifier [i:j] share one key, whatever
    the other settings of the two limiters. *)
Theorem keys_separate_identifiers_not_prefixes :
  (forall this a b,
      RateLimiter.buildKey this a = RateLimiter.buildKey this b -> a = b)
  /\ (forall c1 q1 w1 a1 c2 q2 w2 a2 p i j,
        RateLimiter.buildKey (RateLimiter.mk c1 q1 w1 (p +:+ ":" +:+ i) a1) j
        = RateLimiter.buildKey (RateLimiter.mk c2 q2 w2 p a2) (i +:+ ":" +:+ j)).
Proof.
  split; [exact buildKey_inj|].
  intros. unfold RateLimiter.buildKey.
  cbn [RateLimiter.keyPrefix]. f_equal.
  rewrite append_assoc. f_equal.
Qed.

(* ===================================================================== *)
(** ** How the three methods compose *)
(* ===================================================================== *)

Lemma reset_inr this identifier w b w' :
  RateLimiter.reset this identifier w = (inr b, w') ->
  ~ blank identifier /\ available w /\ delivered (next_leg w) = true.
Proof.
  unfold RateLimiter.reset.
  destruct (_ || _)%bool eqn:G; [discriminate|].
  apply guard_not_blank in G.
  unfold bind at 1. unfold RateLimiter.isRedisAvailable.
  destruct (isOpen w && isReady w)%bool eqn:Av; simpl; [|discriminate].
  apply available_true in Av. unfold bind at 1.
  destruct (Client.del _ w) as [[e|z] w1] eqn:E; [discriminate|].
  apply integer_reply_inr in E as [D _]. auto.
Qed.

Lemma getStatus_inr this identifier w o w' :
  RateLimiter.getStatus this identifier w = (inr o, w') ->
  ~ blank identifier /\ available w /\ delivered (next_leg w) = true.
Proof.
  unfold RateLimiter.getStatus.
  destruct (_ || _)%bool eqn:G; [discriminate|].
  apply guard_not_blank in G.
  unfold bind at 1. unfold RateLimiter.isRedisAvailable.
  destruct (isOpen w && isReady w)%bool eqn:Av; simpl; [|discriminate].
  apply available_true in Av. unfold bind, Client.multi_exec, send.
  destruct (delivered (next_leg w)); [auto | discriminate].
Qed.

Lemma exec_INCR_writes t k st c st' :
  Redis.exec t (Redis.INCR k) st = (Redis.Integer c, st') ->
  exists x, st' !! k = Some (Redis.mkEntry (Js.of_Z c) x).
Proof.
  unfold Redis.exec. destruct (Redis.live st k t) as [e|].
  - destruct (Redis.string2ll (Redis.value e)); [|discriminate].
    intros [= <- <-]. eexists. apply lookup_insert_eq.
  - intros [= <- <-]. eexists. apply lookup_insert_eq.
Qed.

(** A call that returns leaves the count it observed under the key, logs
    it, and computes its verdict from it. *)
Lemma limit_leaves_count this identifier w res w' :
  RateLimiter.limit this identifier w = (inr res, w') ->
  exists c x,
    store w' !! RateLimiter.buildKey this identifier
    = Some (Redis.mkEntry (Js.of_Z c) x)
    /\ logged w'
       = (logged w ++ [check_line this (RateLimiter.buildKey this identifier) c])%list
    /\ RateLimitResult.allowed res = (c <=? RateLimiter.requestLimit this)
    /\ RateLimitResult.remaining res
       = Z.max 0 (RateLimiter.requestLimit this - c).
Proof.
  intros H. apply limit_inr in H as (_ & _ & H).
  apply fixedWindowLimit_inr in H
    as (rp & c & z & w1 & w2 & w3 & A1 & Hrp & A2 & A3 & -> & ->).
  apply answered_store in A1 as (st1 & E1 & S1 & G1 & L1 & T1).
  apply answered_store in A2 as (st2 & E2 & S2 & G2 & L2 & T2).
  apply answered_store in A3 as (st3 & E3 & S3 & G3 & L3 & T3).
  apply exec_TTL_store in E3. rewrite S2 in E3. subst st3.
  apply exec_INCR_writes in E2 as [x Hx].
  exists c, x. simpl. rewrite S3, G3, G2, G1. auto.
Qed.

(** X3 (reset, then a fresh window).  After a [reset] that returned, the
    next [limit] call for the identifier that returns, whenever it is
    made, observes the count 1: it is allowed when the quota is at least 1
    and reports the quota less one as remaining. *)
Theorem limit_after_reset_counts_from_one this identifier w b w1 g res w2 :
  RateLimiter.reset this identifier w = (inr b, w1) ->
  RateLimiter.limit this identifier (snd (sleep g w1)) = (inr res, w2) ->
  logged w2
  = (logged w1 ++ [check_line this (RateLimiter.buildKey this identifier) 1])%list
  /\ RateLimitResult.allowed res = (1 <=? RateLimiter.requestLimit this)
  /\ RateLimitResult.remaining res = Z.max 0 (RateLimiter.requestLimit this - 1).
Proof.
  intros Hr Hl.
  pose proof (reset_inr _ _ _ _ _ Hr) as (Hb & Ha & D).
  rewrite (reset_run this identifier w Hb Ha D) in Hr.
  injection Hr as _ <-.
  apply limit_inr in Hl as (_ & _ & Hl).
  apply fixedWindowLimit_fresh in Hl as (_ & G & Hal & Hrem).
  - simpl in G. auto.
  - unfold Redis.live. simpl. rewrite lookup_delete_eq. reflexivity.
Qed.

Lemma limit_after_reset_counts_from_one_witness :
  exists w1 res w2,
    logged w2
    = (logged w1 ++ [check_line demo_limiter
                       (RateLimiter.buildKey demo_limiter "user-123") 1])%list
    /\ RateLimitResult.allowed res = (1 <=? RateLimiter.requestLimit demo_limiter)
    /\ RateLimitResult.remaining res
       = Z.max 0 (RateLimiter.requestLimit demo_limiter - 1).
Proof.
  eexists _, _, _.
  eapply (limit_after_reset_counts_from_one demo_limiter "user-123"
            (snd (limit_calls demo_limiter "user-123" [0%N; 0%N] demo_world))
            _ _ 0%N);
    vm_compute; reflexivity.
Defined.

(** X4 (no counter, no status).  [getStatus] answers [null] whenever it
    returns for an identifier that has no live counter, and in particular
    whenever it returns after a [reset] of that identifier, however long
    after. *)
Theorem getStatus_null_without_counter this identifier :
  (forall w o w',
      Redis.live (store w) (RateLimiter.buildKey this identifier) (clock w) = None ->
      RateLimiter.getStatus this identifier w = (inr o, w') ->
      o = None)
  /\ (forall w b w1 g o w2,
        RateLimiter.reset this identifier w = (inr b, w1) ->
        RateLimiter.getStatus this identifier (snd (sleep g w1)) = (inr o, w2) ->
        o = None).
Proof.
  assert (A : forall w o w',
    Redis.live (store w) (RateLimiter.buildKey this identifier) (clock w) = None ->
    RateLimiter.getStatus this identifier w = (inr o, w') -> o = None).
  { intros w o w' Hno H.
    pose proof (getStatus_inr _ _ _ _ _ H) as (Hb & Ha & D).
    destruct (getStatus_run this identifier w Hb Ha D) as [rs E].
    rewrite E in H. injection H as <- _.
    rewrite (not_live_mono _ _ (clock w)); [reflexivity| |assumption].
    unfold arrival. pose proof (N2Z.is_nonneg (delay (next_leg w))). lia. }
  split; [exact A|].
  intros w b w1 g o w2 Hr Hs.
  pose proof (reset_inr _ _ _ _ _ Hr) as (Hb & Ha & D).
  rewrite (reset_run this identifier w Hb Ha D) in Hr.
  injection Hr as _ <-.
  apply A in Hs; [assumption|].
  unfold Redis.live. simpl. rewrite lookup_delete_eq. reflexivity.
Qed.

Lemma getStatus_null_without_counter_witness :
  exists o : option WindowStatus.t, o = None.
Proof.
  eexists.
  eapply (proj1 (getStatus_null_without_counter demo_limiter "never-called")
                demo_world);
    vm_compute; reflexivity.
Defined.

(** X5 (status after a call).  When [getStatus] returns after a [limit]
    call for the same identifier that returned, it reports the count that
    call observed, with the TTL the store reports, provided the counter
    has an expiry that is at least half a second away when the
    transaction is served; otherwise it answers [null]. *)
Theorem getStatus_after_limit this identifier w res w1 g o w2 :
  RateLimiter.limit this identifier w = (inr res, w1) ->
  RateLimiter.getStatus this identifier (snd (sleep g w1)) = (inr o, w2) ->
  exists c x,
    logged w1
    = (logged w ++ [check_line this (RateLimiter.buildKey this identifier) c])%list
    /\ store w1 !! RateLimiter.buildKey this identifier
       = Some (Redis.mkEntry (Js.of_Z c) x)
    /\ o = match x with
           | Some e =>
               if e - clock w2 <? 500 then None
               else Some (WindowStatus.mk (Some c) ((e - clock w2 + 500) / 1000))
           | None => None
           end.
Proof.
  intros Hl Hs.
  apply limit_leaves_count in Hl as (c & x & S & G & _ & _).
  exists c, x. split; [assumption|]. split; [assumption|].
  pose proof (getStatus_inr _ _ _ _ _ Hs) as (Hb & Ha & D).
  destruct (getStatus_run this identifier _ Hb Ha D) as [rs E].
  rewrite E in Hs. injection Hs as <- <-.
  cbn [clock after_send store snd sleep].
  set (t := arrival _).
  unfold Redis.live. cbn [store snd sleep]. rewrite S.
  unfold Redis.expired. cbn [Redis.expireAt Redis.value].
  destruct x as [e|]; cbn [Redis.expireAt Redis.value].
  2:{ rewrite of_Z_nonempty, parseInt_of_Z. reflexivity. }
  destruct (e <=? t) eqn:X.
  - apply Z.leb_le in X.
    assert ((e - t <? 500) = true) as -> by (apply Z.ltb_lt; lia). reflexivity.
  - cbn [Redis.expireAt Redis.value].
    rewrite of_Z_nonempty, parseInt_of_Z. cbn [orb].
    apply Z.leb_gt in X. destruct (e - t <? 500) eqn:Y.
    + apply Z.ltb_lt in Y.
      assert ((e - t + 500) / 1000 <= 0) as Z0
          by (apply Z.lt_succ_r, Z.div_lt_upper_bound; lia).
      apply Z.leb_le in Z0. rewrite Z0. reflexivity.
    + apply Z.ltb_ge in Y.
      assert (0 < (e - t + 500) / 1000) as Z0 by (apply Z.div_str_pos; lia).
      apply Z.leb_gt in Z0. rewrite Z0. reflexivity.
Qed.

Lemma getStatus_after_limit_witness :
  exists w1 o w2 c x,
    logged w1
    = (logged demo_world
       ++ [check_line demo_limiter (RateLimiter.buildKey demo_limiter "user-123") c])%list
    /\ store w1 !! RateLimiter.buildKey demo_limiter "user-123"
       = Some (Redis.mkEntry (Js.of_Z c) x)
    /\ o = match x with
           | Some e =>
               if e - clock w2 <? 500 then None
               else Some (WindowStatus.mk (Some c) ((e - clock w2 + 500) / 1000))
           | None => None
           end.
Proof.
  eexists _, _, _.
  eapply (getStatus_after_limit demo_limiter "user-123" demo_world _ _ 1000%N);
    vm_compute; reflexivity.
Defined.

(* ===================================================================== *)
(** ** The edges of a window *)
(* ===================================================================== *)

(** X6 (the call that opens a window).  A [limit] call that starts with no
    live counter for its key and returns reports a [ttl] that is positive
    and at most the window; when the whole call takes less than half a
    second, the [ttl] is the window itself and [reset] is the start of the
    call, in whole seconds, plus the window. *)
Theorem window_opening_call_ttl this identifier w res w' :
  Redis.live (store w) (RateLimiter.buildKey this identifier) (clock w) = None ->
  RateLimiter.limit this identifier w = (inr res, w') ->
  0 < RateLimitResult.ttl res <= RateLimiter.window this
  /\ (clock w' - clock w < 500 ->
      RateLimitResult.ttl res = RateLimiter.window this
      /\ RateLimitResult.reset res
         = Js.ceil_div (clock w) 1000 + RateLimiter.window this).
Proof.
  intros Hno H. apply limit_inr in H as (_ & _ & H).
  apply fixedWindowLimit_inr in H
    as (rp & c & z & w1 & w2 & w3 & A1 & Hrp & A2 & A3 & -> & ->).
  apply answered_store in A1 as (st1 & E1 & S1 & G1 & L1 & T1).
  apply answered_store in A2 as (st2 & E2 & S2 & G2 & L2 & T2).
  apply answered_store in A3 as (st3 & E3 & S3 & G3 & L3 & T3).
  cbn [RateLimitResult.ttl RateLimitResult.reset clock with_line].
  set (W := RateLimiter.window this) in *.
  set (key := RateLimiter.buildKey this identifier) in *.
  (* SET creates the key, so the window is positive *)
  unfold Redis.exec in E1.
  destruct (W <=? 0) eqn:HW.
  { injection E1 as <- _. destruct Hrp as [|[m ?]]; discriminate. }
  apply Z.leb_gt in HW.
  rewrite (not_live_mono _ _ (clock w)) in E1; [|lia|assumption].
  injection E1 as _ <-.
  (* what TTL can reply *)
  assert (Hz : z <= W /\ (clock w3 - clock w < 500 -> z = W)).
  { unfold Redis.exec in E2, E3. rewrite S1 in E2. rewrite S2 in E3.
    unfold Redis.live in E2. rewrite lookup_insert_eq in E2.
    unfold Redis.expired in E2. cbn [Redis.expireAt Redis.value] in E2.
    destruct (arrival w + W * 1000 <=? arrival w1) eqn:X2.
    - apply Z.leb_le in X2. injection E2 as _ <-.
      unfold Redis.live in E3. rewrite lookup_insert_eq in E3.
      cbn in E3. injection E3 as <- _. split; lia.
    - apply Z.leb_gt in X2.
      change (Redis.string2ll "0") with (Some 0) in E2. injection E2 as _ <-.
      unfold Redis.live in E3. rewrite lookup_insert_eq in E3.
      unfold Redis.expired in E3. cbn [Redis.expireAt Redis.value] in E3.
      destruct (arrival w + W * 1000 <=? arrival w2) eqn:X3.
      + apply Z.leb_le in X3. injection E3 as <- _. split; lia.
      + apply Z.leb_gt in X3. injection E3 as <- _. split.
        * apply Z.lt_succ_r, Z.div_lt_upper_bound; lia.
        * intros Hfast. apply Z.le_antisymm.
          -- apply Z.lt_succ_r, Z.div_lt_upper_bound; lia.
          -- apply Z.div_le_lower_bound; lia. }
  destruct Hz as [Hle Hfast].
  split.
  - destruct (0 <? z) eqn:Z0; [apply Z.ltb_lt in Z0|]; lia.
  - intros Hd. specialize (Hfast Hd). subst z.
    assert ((0 <? W) = true) as -> by (apply Z.ltb_lt; lia).
    split; [reflexivity | apply ceil_div_add_seconds].
Qed.

Lemma window_opening_call_ttl_witness :
  exists res w',
    0 < RateLimitResult.ttl res <= RateLimiter.window demo_limiter
    /\ (clock w' - clock demo_world < 500 ->
        RateLimitResult.ttl res = RateLimiter.window demo_limiter
        /\ RateLimitResult.reset res
           = Js.ceil_div (clock demo_world) 1000 + RateLimiter.window demo_limiter).
Proof.
  eexists _, _.
  eapply (window_opening_call_ttl demo_limiter "user-123" demo_world);
    vm_compute; reflexivity.
Defined.

(** X7 (a counter that outlives its expiry check).  When [SET] finds the
    old counter still alive and [INCR] is served only after that counter
    has expired, the call counts 1 on a counter that [INCR] has created
    without any expiry, and reports the window as [ttl]. *)
Theorem counter_reborn_without_expiry this identifier w res w' e x x1 x2 x3 :
  store w !! RateLimiter.buildKey this identifier = Some e ->
  Redis.expireAt e = Some x ->
  RateLimiter.limit this identifier w = (inr res, w') ->
  wire w' = (wire w ++ [x1; x2; x3])%list ->
  servedAt x1 < x <= servedAt x2 ->
  store w' !! RateLimiter.buildKey this identifier
  = Some (Redis.mkEntry "1" None)
  /\ logged w'
     = (logged w ++ [check_line this (RateLimiter.buildKey this identifier) 1])%list
  /\ RateLimitResult.remaining res = Z.max 0 (RateLimiter.requestLimit this - 1)
  /\ RateLimitResult.ttl res = RateLimiter.window this.
Proof.
  intros Hst Hx H Hwire [Hlt Hge]. apply limit_inr in H as (_ & _ & H).
  apply fixedWindowLimit_inr in H
    as (rp & c & z & w1 & w2 & w3 & A1 & Hrp & A2 & A3 & -> & ->).
  pose proof (answered_wire _ _ _ _ A1) as X1.
  pose proof (answered_wire _ _ _ _ A2) as X2.
  pose proof (answered_wire _ _ _ _ A3) as X3.
  apply answered_store in A1 as (st1 & E1 & S1 & G1 & L1 & T1).
  apply answered_store in A2 as (st2 & E2 & S2 & G2 & L2 & T2).
  apply answered_store in A3 as (st3 & E3 & S3 & G3 & L3 & T3).
  cbn [wire with_line] in Hwire.
  rewrite X3, X2, X1, <- !app_assoc in Hwire.
  apply app_inv_head in Hwire. injection Hwire as <- <- <-.
  cbn [servedAt] in Hlt, Hge.
  set (key := RateLimiter.buildKey this identifier) in *.
  (* SET finds the counter *)
  unfold Redis.exec in E1.
  destruct (RateLimiter.window this <=? 0).
  { injection E1 as <- _. destruct Hrp as [|[m ?]]; discriminate. }
  rewrite (live_Some _ _ e) in E1; [|assumption|].
  2:{ unfold Redis.expired. rewrite Hx. apply Z.leb_gt. lia. }
  injection E1 as _ <-.
  (* INCR does not *)
  unfold Redis.exec in E2. rewrite S1 in E2.
  assert (Redis.live (store w) key (arrival w1) = None) as L.
  { unfold Redis.live. rewrite Hst. unfold Redis.expired. rewrite Hx.
    assert ((x <=? arrival w1) = true) as -> by (apply Z.leb_le; lia).
    reflexivity. }
  rewrite L in E2. injection E2 as <- <-.
  (* TTL replies -1 *)
  unfold Redis.exec in E3. rewrite S2 in E3.
  unfold Redis.live in E3. rewrite lookup_insert_eq in E3. cbn in E3.
  injection E3 as <- <-.
  cbn [store logged with_line RateLimitResult.remaining RateLimitResult.ttl].
  rewrite S3, G3, G2, G1. rewrite lookup_insert_eq.
  repeat split; reflexivity.
Qed.

Lemma counter_reborn_without_expiry_witness :
  exists res w',
    RateLimiter.limit demo_limiter "user-123"
      (with_network [mkLeg 0 true; mkLeg 5 true]
         (snd (sleep 59999
                 (snd (RateLimiter.limit demo_limiter "user-123" demo_world)))))
    = (inr res, w')
    /\ store w' !! RateLimiter.buildKey demo_limiter "user-123"
       = Some (Redis.mkEntry "1" None)
    /\ RateLimitResult.ttl res = RateLimiter.window demo_limiter.
Proof.
  eexists _, _. split; [vm_compute; reflexivity|].
  edestruct (counter_reborn_without_expiry demo_limiter "user-123"
               (with_network [mkLeg 0 true; mkLeg 5 true]
                  (snd (sleep 59999
                     (snd (RateLimiter.limit demo_limiter "user-123" demo_world))))))
    as (H1 & _ & _ & H4).
  - vm_compute. reflexivity.
  - reflexivity.
  - vm_compute. reflexivity.
  - vm_compute. reflexivity.
  - vm_compute. split; [reflexivity | discriminate].
  - split; [exact H1 | exact H4].
Defined.

(** X8 (a counter without expiry never resets).  Once the counter of a key
    holds the count [n] and has no expiry, the calls of any later sequence
    for that identifier that all return observe [n + 1], [n + 2], ...,
    whatever the pauses between them: no new window ever opens, and when
    [n] has reached the quota every one of them is rejected. *)
Theorem counter_without_expiry_never_resets this identifier gaps w outs wN e n :
  store w !! RateLimiter.buildKey this identifier = Some e ->
  Redis.expireAt e = None ->
  Redis.string2ll (Redis.value e) = Some n ->
  limit_calls this identifier gaps w = (outs, wN) ->
  Forall succeeded outs ->
  logged wN
  = (logged w ++ map (check_line this (RateLimiter.buildKey this identifier))
                     (seqZ (n + 1) (Z.of_nat (length gaps))))%list
  /\ Forall2 (call_counted this) (seqZ (n + 1) (Z.of_nat (length gaps))) outs
  /\ (RateLimiter.requestLimit this <= n ->
      Forall (fun o => exists r, o = inr r /\ RateLimitResult.allowed r = false) outs).
Proof.
  intros Hst Hx Hn Hrun Hall.
  destruct (limit_calls_in_window this identifier gaps w outs wN e n)
    as [Hlog Hf]; try assumption.
  { unfold Redis.expired. rewrite Hx. reflexivity. }
  split; [assumption|]. split; [assumption|].
  intros HQ. apply Forall_lookup. intros i o Hi.
  destruct (Forall2_lookup_r _ _ _ _ _ Hf Hi) as (k & Hk & r & -> & Hal & _).
  apply lookup_seqZ in Hk as [-> _].
  exists r. split; [reflexivity|]. rewrite Hal. apply Z.leb_gt. lia.
Qed.

Lemma counter_without_expiry_never_resets_witness :
  exists outs wN,
    logged wN
    = (logged (snd (RateLimiter.limit demo_limiter "user-123"
                      (with_network [mkLeg 0 true; mkLeg 5 true]
                         (snd (sleep 59999
                            (snd (RateLimiter.limit demo_limiter "user-123"
                                    demo_world)))))))
       ++ map (check_line demo_limiter (RateLimiter.buildKey demo_limiter "user-123"))
              (seqZ (1 + 1) (Z.of_nat (length [3600000%N; 3600000%N]))))%list
    /\ Forall2 (call_counted demo_limiter)
               (seqZ (1 + 1) (Z.of_nat (length [3600000%N; 3600000%N]))) outs
    /\ (RateLimiter.requestLimit demo_limiter <= 1 ->
        Forall (fun o => exists r, o = inr r /\ RateLimitResult.allowed r = false)
               outs).
Proof.
  eexists _, _.
  eapply (counter_without_expiry_never_resets demo_limiter "user-123"
            [3600000%N; 3600000%N] _ _ _ (Redis.mkEntry "1" None) 1).
  - vm_compute. reflexivity.
  - reflexivity.
  - vm_compute. reflexivity.
  - vm_compute. reflexivity.
  - repeat (constructor; [eexists; reflexivity|]). constructor.
Defined.

(* ===================================================================== *)
(** ** Round-trips *)
(* ===================================================================== *)




(** X10 (round-trips of a call that returns).  A [limit] call that returns
    has made exactly three round-trips, [SET key "0" EX window NX], then
    [INCR key], then [TTL key], served in this order after the call began;
    a [reset] that returns has made exactly one, [DEL key], and its result
    tells whether the store counted a key removed; a [getStatus] that
    returns has made exactly one, the transaction [GET key; TTL key]. *)
Theorem round_trips_of_calls_that_return this identifier w w' :
  let key := RateLimiter.buildKey this identifier in
  (forall res,
      RateLimiter.limit this identifier w = (inr res, w') ->
      exists rp c z t1 t2 t3,
        wire w'
        = (wire w ++
           [mkExchange t1 (Single (Redis.SET_EX_NX key "0" (RateLimiter.window this)))
                       (Some [rp]);
            mkExchange t2 (Single (Redis.INCR key)) (Some [Redis.Integer c]);
            mkExchange t3 (Single (Redis.TTL key)) (Some [Redis.Integer z])])%list
        /\ clock w <= t1 <= t2 /\ t2 <= t3 /\ t3 = clock w')
  /\ (forall b,
        RateLimiter.reset this identifier w = (inr b, w') ->
        wire w'
        = (wire w ++
           [mkExchange (clock w') (Single (Redis.DEL key))
                       (Some [Redis.Integer (if b then 1 else 0)])])%list)
  /\ (forall o,
        RateLimiter.getStatus this identifier w = (inr o, w') ->
        exists rs,
          wire w'
          = (wire w ++
             [mkExchange (clock w') (Multi [Redis.GET key; Redis.TTL key])
                         (Some rs)])%list).
Proof.
  intros key. repeat split.
  - intros res H.
    apply limit_exchanges in H
      as (rp & c & z & t1 & t2 & t3 & X & L1 & L2 & L3 & T & _ & _).
    exists rp, c, z, t1, t2, t3. auto.
  - intros b H.
    pose proof (reset_inr _ _ _ _ _ H) as (Hb & Ha & D).
    rewrite (reset_run this identifier w Hb Ha D) in H. fold key in H.
    injection H as <- <-. cbn [wire clock with_line after_send].
    destruct (Redis.live (store w) key (arrival w)); reflexivity.
  - intros o H.
    pose proof (getStatus_inr _ _ _ _ _ H) as (Hb & Ha & D).
    destruct (getStatus_run this identifier w Hb Ha D) as [rs E].
    fold key in E. rewrite E in H. injection H as _ <-.
    exists rs. reflexivity.
Qed.

Lemma round_trips_of_calls_that_return_witness :
  exists rs,
    wire (snd (RateLimiter.getStatus demo_limiter "user-123" demo_world))
    = (wire demo_world ++
       [mkExchange
          (clock (snd (RateLimiter.getStatus demo_limiter "user-123" demo_world)))
          (Multi [Redis.GET (RateLimiter.buildKey demo_limiter "user-123");
                  Redis.TTL (RateLimiter.buildKey demo_limiter "user-123")])
          (Some rs)])%list.
Proof.
  destruct (round_trips_of_calls_that_return demo_limiter "user-123" demo_world
              (snd (RateLimiter.getStatus demo_limiter "user-123" demo_world)))
    as (_ & _ & H).
  apply (H (result_of None
              (fst (RateLimiter.getStatus demo_limiter "user-123" demo_world)))).
  vm_compute. reflexivity.
Defined.

(* ===================================================================== *)
(** ** White space, commas and prefixes *)
(* ===================================================================== *)

Lemma trimEnd_cons_nonspace c r :
  Js.is_space c = false -> Js.trimEnd (String c r) = String c (Js.trimEnd r).
Proof. intros H. simpl. rewrite H. destruct (Js.trimEnd r); reflexivity. Qed.

Lemma trimEnd_idem s : Js.trimEnd (Js.trimEnd s) = Js.trimEnd s.
Proof.
  induction s as [|c r IH]; [reflexivity|].
  simpl. destruct (Js.trimEnd r) as [|c' r'] eqn:E.
  - destruct (Js.is_space c) eqn:Sp; [reflexivity|].
    simpl. rewrite Sp. reflexivity.
  - remember (String c' r') as u. simpl. rewrite IH. subst u. reflexivity.
Qed.

Lemma trimStart_head s :
  Js.trimStart s = "" \/ exists c r, Js.trimStart s = String c r /\ Js.is_space c = false.
Proof.
  induction s as [|c r IH]; [by left|].
  simpl. destruct (Js.is_space c) eqn:Sp; [exact IH|].
  right. eauto.
Qed.

Lemma trim_head s :
  Js.trim s = "" \/ exists c r, Js.trim s = String c r /\ Js.is_space c = false.
Proof.
  unfold Js.trim. destruct (trimStart_head s) as [->|(c & r & -> & Sp)];
    [by left|].
  right. rewrite trimEnd_cons_nonspace by assumption. eauto.
Qed.

Lemma trim_idem s : Js.trim (Js.trim s) = Js.trim s.
Proof.
  destruct (trim_head s) as [->|(c & r & E & Sp)]; [reflexivity|].
  unfold Js.trim at 1. rewrite E. simpl Js.trimStart. rewrite Sp.
  rewrite <- E. unfold Js.trim. apply trimEnd_idem.
Qed.

Lemma trimmed_not_blank s : Js.trim s <> "" -> ~ blank (Js.trim s).
Proof. intros H [E|E]; [|rewrite trim_idem in E]; contradiction. Qed.

Lemma no_comma_split_first s : no_comma (Ip.split_first s).
Proof.
  induction s as [|c r IH]; simpl; [exact I|].
  destruct (Ascii.eqb c ",") eqn:E; simpl; [exact I|].
  apply Ascii.eqb_neq in E. auto.
Qed.

Lemma no_comma_trimStart s : no_comma s -> no_comma (Js.trimStart s).
Proof.
  induction s as [|c r IH]; simpl; [auto|].
  intros [Hc Hr]. destruct (Js.is_space c); simpl; auto.
Qed.

Lemma no_comma_trimEnd s : no_comma s -> no_comma (Js.trimEnd s).
Proof.
  induction s as [|c r IH]; simpl; [auto|].
  intros [Hc Hr]. specialize (IH Hr).
  destruct (Js.trimEnd r); [destruct (Js.is_space c)|]; simpl; auto.
Qed.

Lemma no_comma_trim s : no_comma s -> no_comma (Js.trim s).
Proof. intros H. by apply no_comma_trimEnd, no_comma_trimStart. Qed.

Lemma split_first_before_comma a rest :
  no_comma a -> Ip.split_first (a +:+ "," +:+ rest) = a.
Proof.
  induction a as [|c a IH]; simpl; [reflexivity|].
  intros [Hc Ha]. apply Ascii.eqb_neq in Hc. rewrite Hc, IH by assumption.
  reflexivity.
Qed.

Lemma prefix_split p s :
  String.prefix p s = true -> s = p +:+ Ip.substring_from (String.length p) s.
Proof.
  revert s. induction p as [|a p IH]; intros s; [reflexivity|].
  destruct s as [|b s]; simpl; [discriminate|].
  destruct (ascii_dec a b) as [->|]; [|discriminate].
  intros H. change (String b s = String b (p +:+ Ip.substring_from (String.length p) s)).
  f_equal. by apply IH.
Qed.

Lemma prefix_append p s : String.prefix p (p +:+ s) = true.
Proof.
  induction p as [|a p IH]; simpl; [by destruct s|].
  destruct (ascii_dec a a); [exact IH | contradiction].
Qed.

Lemma substring_from_append p s :
  Ip.substring_from (String.length p) (p +:+ s) = s.
Proof. induction p as [|a p IH]; simpl; [reflexivity | exact IH]. Qed.

(* ===================================================================== *)
(** ** [extractClientIp], [normalizeIp], [getDefaultIdentifier] *)
(* ===================================================================== *)

Lemma from_real_ip_returns (req : Ip.Request) :
  exists ip,
    match Ip.headers req !! "x-real-ip" with
    | Some (Ip.One realIp) =>
        if Js.not_string realIp
        then match Ip.remoteAddress req with
             | Some socketIp =>
                 if Js.not_string socketIp then inr "unknown" else inr socketIp
             | None => inr "unknown"
             end
        else inr (Js.trim realIp)
    | _ => match Ip.remoteAddress req with
           | Some socketIp =>
               if Js.not_string socketIp then inr "unknown" else inr socketIp
           | None => inr "unknown"
           end
    end = (inr ip : Exn + string)
    /\ (blank ip ->
        (exists s, Ip.headers req !! "x-real-ip" = Some (Ip.One s)
                   /\ s <> "" /\ Js.trim s = "" /\ ip = "")
        \/ Ip.remoteAddress req = Some ip).
Proof.
  assert (U : ~ blank "unknown") by (intros [H|H]; vm_compute in H; discriminate).
  assert (S : exists ip,
    match Ip.remoteAddress req with
    | Some socketIp =>
        if Js.not_string socketIp then inr "unknown" else inr socketIp
    | None => inr "unknown"
    end = (inr ip : Exn + string)
    /\ (blank ip -> Ip.remoteAddress req = Some ip)).
  { destruct (Ip.remoteAddress req) as [a|]; [destruct (Js.not_string a)|];
      eexists; (split; [reflexivity|]); intros B; try contradiction; reflexivity. }
  destruct S as (ip & E & HB).
  destruct (Ip.headers req !! "x-real-ip") as [[s|l]|].
  - destruct (Js.not_string s) eqn:Ns.
    + exists ip. split; [exact E | auto].
    + exists (Js.trim s). split; [reflexivity|]. intros B. left.
      exists s. destruct (trim_head s) as [T|(c & r & T & Sp)].
      * rewrite T. repeat split; auto. intros ->. discriminate.
      * exfalso. apply (trimmed_not_blank s); [rewrite T; discriminate | exact B].
  - exists ip. split; [exact E | auto].
  - exists ip. split; [exact E | auto].
Qed.

Lemma extractClientIp_forwarded req s :
  (Ip.headers req !! "x-forwarded-for" = Some (Ip.One s)
   \/ exists l, Ip.headers req !! "x-forwarded-for" = Some (Ip.Many (s :: l))) ->
  Js.trim (Ip.split_first s) <> "" ->
  Ip.extractClientIp req = inr (Js.trim (Ip.split_first s)).
Proof.
  intros Hh Hne. unfold Ip.extractClientIp.
  assert (Ns : Js.not_string (Js.trim (Ip.split_first s)) = false)
    by (destruct (Js.trim (Ip.split_first s)); [contradiction|reflexivity]).
  destruct Hh as [->|[l ->]]; simpl.
  - destruct s as [|c s]; [contradiction|]. rewrite Ns. reflexivity.
  - rewrite Ns. reflexivity.
Qed.

Lemma normalizeIp_mapped s : Ip.normalizeIp ("::ffff:" +:+ s) = s.
Proof.
  unfold Ip.normalizeIp. rewrite prefix_append.
  apply (substring_from_append "::ffff:").
Qed.

(** X11 ([extractClientIp] throws only on an empty array).  The function
    throws exactly when the [x-forwarded-for] header is an array with no
    element; on every other request it returns an address. *)
Theorem extractClientIp_throws_iff req :
  (exists e, Ip.extractClientIp req = inl e)
  <-> Ip.headers req !! "x-forwarded-for" = Some (Ip.Many []).
Proof.
  unfold Ip.extractClientIp.
  destruct (from_real_ip_returns req) as (ip & E & _). rewrite E.
  destruct (Ip.headers req !! "x-forwarded-for") as [[s|l]|].
  - destruct s as [|c s]; [split; [intros [e [=]] | discriminate]|].
    destruct (Js.not_string _); split; try (intros [e [=]]); discriminate.
  - destruct l as [|s l]; simpl.
    + split; eauto.
    + destruct (Js.not_string _); split; try (intros [e [=]]); discriminate.
  - split; [intros [e [=]] | discriminate].
Qed.

(** X12 (a forwarded address comes first and comes clean).  When
    [x-forwarded-for], or its first element when it is an array, has a
    first comma-separated item that is more than white space, the result
    is that item with the white space around it removed, whatever the
    other headers and the socket say: it is not empty, has no comma, and
    trimming it again changes nothing. *)
Theorem forwarded_address_wins req s :
  (Ip.headers req !! "x-forwarded-for" = Some (Ip.One s)
   \/ exists l, Ip.headers req !! "x-forwarded-for" = Some (Ip.Many (s :: l))) ->
  Js.trim (Ip.split_first s) <> "" ->
  Ip.extractClientIp req = inr (Js.trim (Ip.split_first s))
  /\ Js.trim (Js.trim (Ip.split_first s)) = Js.trim (Ip.split_first s)
  /\ no_comma (Js.trim (Ip.split_first s))
  /\ ~ blank (Js.trim (Ip.split_first s)).
Proof.
  intros Hh Hne. split; [|split; [apply trim_idem|split]].
  - by apply extractClientIp_forwarded.
  - apply no_comma_trim, no_comma_split_first.
  - by apply trimmed_not_blank.
Qed.

Lemma forwarded_address_wins_witness :
  Ip.extractClientIp
    (request_of [("x-forwarded-for", Ip.One " 203.0.113.7 , 10.0.0.1");
                 ("x-real-ip", Ip.One "10.0.0.2")] (Some "10.0.0.3"))
  = inr (Js.trim (Ip.split_first " 203.0.113.7 , 10.0.0.1")).
Proof.
  eapply (forwarded_address_wins _ " 203.0.113.7 , 10.0.0.1").
  - left. vm_compute. reflexivity.
  - vm_compute. discriminate.
Defined.

(** X13 (when the address is blank).  The address [extractClientIp]
    returns is blank (empty, or white space only) in two cases only: the
    [x-real-ip] header is a non-empty string of white space, and the
    result is then the empty string; or the result is the socket address
    itself. *)
Theorem extractClientIp_blank_cases req ip :
  Ip.extractClientIp req = inr ip ->
  blank ip ->
  (exists s, Ip.headers req !! "x-real-ip" = Some (Ip.One s)
             /\ s <> "" /\ Js.trim s = "" /\ ip = "")
  \/ Ip.remoteAddress req = Some ip.
Proof.
  unfold Ip.extractClientIp.
  destruct (from_real_ip_returns req) as (ip0 & E & HB). rewrite E.
  assert (F : forall s, (if Js.not_string (Js.trim (Ip.split_first s))
                         then inr ip0 else inr (Js.trim (Ip.split_first s)))
                        = (inr ip : Exn + string) ->
                        blank ip ->
                        (exists s, Ip.headers req !! "x-real-ip" = Some (Ip.One s)
                                   /\ s <> "" /\ Js.trim s = "" /\ ip = "")
                        \/ Ip.remoteAddress req = Some ip).
  { intros s. destruct (Js.not_string _) eqn:Ns; intros [= <-] B; [auto|].
    exfalso. apply (trimmed_not_blank (Ip.split_first s)); [|exact B].
    intros T. rewrite T in Ns. discriminate. }
  destruct (Ip.headers req !! "x-forwarded-for") as [[s|l]|].
  - destruct s as [|c s]; [intros [= <-]; auto | apply F].
  - destruct l as [|s l]; simpl; [discriminate | apply F].
  - intros [= <-]. auto.
Qed.

Lemma extractClientIp_blank_cases_witness :
  exists s, (request_of [("x-real-ip", Ip.One "  ")] (Some "10.0.0.3")).(Ip.headers)
              !! "x-real-ip" = Some (Ip.One s)
            /\ s <> "" /\ Js.trim s = "".
Proof.
  destruct (extractClientIp_blank_cases
              (request_of [("x-real-ip", Ip.One "  ")] (Some "10.0.0.3")) "")
    as [(s & H1 & H2 & H3 & _)|H].
  - vm_compute. reflexivity.
  - left. reflexivity.
  - exists s. auto.
  - vm_compute in H. discriminate.
Defined.

(** X14 ([normalizeIp] removes one mapped prefix).  An address that starts
    with "::ffff:" loses these seven characters and nothing else, any
    other address is returned as it is; so the result is empty for exactly
    two inputs, the empty string and "::ffff:" itself. *)
Theorem normalizeIp_removes_one_prefix :
  (forall s, Ip.normalizeIp ("::ffff:" +:+ s) = s)
  /\ (forall ip, ip = Ip.normalizeIp ip \/ ip = "::ffff:" +:+ Ip.normalizeIp ip)
  /\ (forall ip, Ip.normalizeIp ip = "" <-> ip = "" \/ ip = "::ffff:").
Proof.
  pose proof normalizeIp_mapped as A.
  assert (B : forall ip, ip = Ip.normalizeIp ip
                         \/ ip = "::ffff:" +:+ Ip.normalizeIp ip).
  { intros ip. unfold Ip.normalizeIp.
    destruct (String.prefix "::ffff:" ip) eqn:P; [right|by left].
    apply (prefix_split "::ffff:" ip P). }
  split; [exact A|]. split; [exact B|].
  intros ip. split.
  - intros H. destruct (B ip) as [E|E]; rewrite H in E; auto.
  - intros [->| ->]; reflexivity.
Qed.

(** X15 (the default identifier of a forwarded IPv4-mapped address).  When
    [x-forwarded-for] is "::ffff:" followed by an address [a] and a comma,
    where [a] has no comma and does not end in white space, the default
    identifier is [a], whatever follows the comma and whatever the other
    headers and the socket say; with nothing between "::ffff:" and the
    comma, the default identifier is the empty string. *)
Theorem default_identifier_of_mapped_forwarded req a rest :
  Ip.headers req !! "x-forwarded-for"
  = Some (Ip.One (("::ffff:" +:+ a) +:+ "," +:+ rest)) ->
  no_comma a -> Js.trimEnd a = a ->
  Ip.getDefaultIdentifier req = inr a.
Proof.
  intros Hh Hc Ht.
  assert (Hc' : no_comma ("::ffff:" +:+ a)) by (simpl; repeat split; auto; discriminate).
  assert (T : Js.trim ("::ffff:" +:+ a) = "::ffff:" +:+ a).
  { unfold Js.trim. change ("::ffff:" +:+ a)
      with (String ":" (String ":" (String "f" (String "f" (String "f"
              (String "f" (String ":" a))))))).
    cbn [Js.trimStart]. change (Js.is_space ":") with false. cbn iota.
    rewrite !trimEnd_cons_nonspace by reflexivity. rewrite Ht. reflexivity. }
  unfold Ip.getDefaultIdentifier.
  rewrite (extractClientIp_forwarded req (("::ffff:" +:+ a) +:+ "," +:+ rest));
    [|by left|].
  - rewrite (split_first_before_comma ("::ffff:" +:+ a) rest Hc'), T.
    f_equal. apply normalizeIp_mapped.
  - rewrite (split_first_before_comma ("::ffff:" +:+ a) rest Hc'), T.
    discriminate.
Qed.

Lemma default_identifier_of_mapped_forwarded_witness :
  Ip.getDefaultIdentifier
    (request_of [("x-forwarded-for",
                  Ip.One (("::ffff:" +:+ "192.168.1.1") +:+ "," +:+ " 10.0.0.1"))]
                None)
  = inr "192.168.1.1".
Proof.
  apply (default_identifier_of_mapped_forwarded _ "192.168.1.1" " 10.0.0.1").
  - vm_compute. reflexivity.
  - vm_compute. repeat split; discriminate.
  - vm_compute. reflexivity.
Defined.

(* ===================================================================== *)
(** ** The Express adapter *)
(* ===================================================================== *)





Lemma limit_refuses this identifier w :
  blank identifier \/ ~ available w ->
  exists e, RateLimiter.limit this identifier w = (inl e, w).
Proof.
  intros H. unfold RateLimiter.limit. destruct (RateLimiter.algorithm this).
  destruct (Js.not_string identifier || String.eqb (Js.trim identifier) "")%bool
    eqn:G.
  - eexists. reflexivity.
  - destruct H as [B|Ha]; [apply guard_blank in B; congruence|].
    rewrite available_true in Ha.
    unfold bind, RateLimiter.isRedisAvailable.
    destruct (isOpen w && isReady w)%bool; [congruence|].
    eexists. reflexivity.
Qed.

(** X18 (when the limiter cannot run).  For a request that is not skipped
    and whose identifier resolves, if that identifier is blank or the
    client is not open and ready, the middleware leaves the world exactly
    as it was, so nothing is sent to the store and nothing is counted, and
    sets no header: it answers 503 when failing closed, and calls [next()]
    when failing open. *)
Theorem handle_when_limiter_cannot_run mw req id w :
  Express.skipped mw req = inr false ->
  Express.clientIdentifier mw req = inr id ->
  blank id \/ ~ available w ->
  Express.handle mw req w
  = (match Express.mw_failStrategy mw with
     | Express.Closed =>
         [Express.SetStatus 503;
          Express.Json (Express.Unavailable
            "Service temporarily unavailable. Please try again later.")]
     | Express.Open => [Express.Next]
     end, w).
Proof.
  intros Hs Hi H. unfold Express.handle. rewrite Hs, Hi.
  destruct (limit_refuses (Express.limiter mw) id w H) as [e ->].
  reflexivity.
Qed.

Lemma handle_when_limiter_cannot_run_witness :
  Express.handle demo_middleware (request_of [] (Some "10.0.0.3")) offline_world
  = ([Express.Next], offline_world).
Proof.
  apply (handle_when_limiter_cannot_run demo_middleware _ "10.0.0.3").
  - reflexivity.
  - vm_compute. reflexivity.
  - right. intros [_ H]. vm_compute in H. discriminate.
Defined.

(** X19 (an address that is the mapped prefix alone is never limited).
    With no [skip] and no [identifier] callback, a request whose
    [x-forwarded-for] header starts with an item that is exactly "::ffff:"
    once trimmed gets the empty identifier, which the limiter refuses: the
    store is not contacted and nothing is counted, however many such
    requests are made.  A middleware that fails open, the default, lets
    every one of them through; one that fails closed answers 503. *)
Theorem mapped_prefix_alone_is_never_counted mw req s w :
  Express.mw_skip mw = None ->
  Express.mw_identifier mw = None ->
  Ip.headers req !! "x-forwarded-for" = Some (Ip.One s) ->
  Js.trim (Ip.split_first s) = "::ffff:" ->
  Express.handle mw req w = (Express.on_failure mw, w)
  /\ (Express.mw_failStrategy mw = Express.Open ->
      Express.handle mw req w = ([Express.Next], w)).
Proof.
  intros Hs Hi Hh Ht.
  assert (E : Express.handle mw req w = (Express.on_failure mw, w)).
  { unfold Express.handle, Express.skipped, Express.clientIdentifier.
    rewrite Hs, Hi. unfold Ip.getDefaultIdentifier.
    rewrite (extractClientIp_forwarded req s);
      [|by left|rewrite Ht; discriminate].
    rewrite Ht. change (Ip.normalizeIp "::ffff:") with "".
    destruct (limit_refuses (Express.limiter mw) "" w) as [e ->];
      [left; by left | reflexivity]. }
  split; [exact E|].
  intros Ho. rewrite E. unfold Express.on_failure. rewrite Ho. reflexivity.
Qed.

Lemma mapped_prefix_alone_is_never_counted_witness :
  Express.handle demo_middleware
    (request_of [("x-forwarded-for", Ip.One "::ffff:, 203.0.113.7")]
                (Some "203.0.113.7"))
    demo_world
  = ([Express.Next], demo_world).
Proof.
  eapply (mapped_prefix_alone_is_never_counted demo_middleware _
            "::ffff:, 203.0.113.7");
    vm_compute; reflexivity.
Defined.

(** X20 (admission through the middleware).  For a request that is not
    skipped and whose identifier resolves, when the limiter returns a
    result computed from the count [c] that [INCR] replied: if [c] is
    within the quota the middleware calls [next()], after the three
    X-RateLimit headers when standard headers are on, with the quota less
    [c] as remaining and no Retry-After; if [c] exceeds the quota it
    answers 429 with the configured message, after the same headers with
    0 remaining and a Retry-After that is the [ttl] of the result. *)
Theorem handle_admits_by_count mw req id w res w1 :
  Express.skipped mw req = inr false ->
  Express.clientIdentifier mw req = inr id ->
  RateLimiter.limit (Express.limiter mw) id w = (inr res, w1) ->
  let Q := RateLimiter.requestLimit (Express.limiter mw) in
  exists x1 t c x3,
    wire w1
    = (wire w ++
       [x1;
        mkExchange t (Single (Redis.INCR (RateLimiter.buildKey (Express.limiter mw) id)))
                   (Some [Redis.Integer c]);
        x3])%list
    /\ Express.handle mw req w
       = (if c <=? Q then
            ((if Express.mw_standardHeaders mw then
                [Express.SetHeader "X-RateLimit-Limit" (Js.of_Z Q);
                 Express.SetHeader "X-RateLimit-Remaining" (Js.of_Z (Q - c));
                 Express.SetHeader "X-RateLimit-Reset"
                                   (Js.of_Z (RateLimitResult.reset res))]
              else [])
             ++ [Express.Next])%list
          else
            ((if Express.mw_standardHeaders mw then
                [Express.SetHeader "X-RateLimit-Limit" (Js.of_Z Q);
                 Express.SetHeader "X-RateLimit-Remaining" "0";
                 Express.SetHeader "X-RateLimit-Reset"
                                   (Js.of_Z (RateLimitResult.reset res));
                 Express.SetHeader "Retry-After"
                                   (Js.of_Z (RateLimitResult.ttl res))]
              else [])
             ++ [Express.SetStatus 429;
                 Express.Json (Express.Exceeded
                                 (Express.mw_message mw)
                                 (RateLimitResult.ttl res) Q 0
                                 (RateLimitResult.reset res))])%list,
          w1).
Proof.
  intros Hs Hi Hl Q. unfold Express.handle. rewrite Hs, Hi, Hl.
  apply limit_exchanges in Hl
    as (rp & c & z & t1 & t2 & t3 & X & _ & _ & _ & _ & _ & ->).
  eexists _, t2, c, _. split; [exact X|].
  cbn [RateLimitResult.allowed RateLimitResult.limit RateLimitResult.remaining
       RateLimitResult.reset RateLimitResult.ttl].
  fold Q. unfold Express.setRateLimitHeaders.
  cbn [Express.info_limit Express.info_remaining Express.info_reset
       Express.retryAfter].
  destruct (c <=? Q) eqn:C; cbn [negb].
  - apply Z.leb_le in C. rewrite Z.max_r by lia. reflexivity.
  - apply Z.leb_gt in C. rewrite Z.max_l by lia. reflexivity.
Qed.

Lemma handle_admits_by_count_witness :
  exists res w1 x1 t c x3,
    wire w1
    = (wire demo_world ++
       [x1;
        mkExchange t (Single (Redis.INCR
                       (RateLimiter.buildKey (Express.limiter demo_middleware)
                                             "10.0.0.3")))
                   (Some [Redis.Integer c]);
        x3])%list
    /\ Express.handle demo_middleware (request_of [] (Some "10.0.0.3")) demo_world
       = (if c <=? 10 then
            ([Express.SetHeader "X-RateLimit-Limit" (Js.of_Z 10);
              Express.SetHeader "X-RateLimit-Remaining" (Js.of_Z (10 - c));
              Express.SetHeader "X-RateLimit-Reset"
                                (Js.of_Z (RateLimitResult.reset res));
              Express.Next])
          else
            ([Express.SetHeader "X-RateLimit-Limit" (Js.of_Z 10);
              Express.SetHeader "X-RateLimit-Remaining" "0";
              Express.SetHeader "X-RateLimit-Reset"
                                (Js.of_Z (RateLimitResult.reset res));
              Express.SetHeader "Retry-After"
                                (Js.of_Z (RateLimitResult.ttl res));
              Express.SetStatus 429;
              Express.Json (Express.Exceeded
                              (Express.mw_message demo_middleware)
                              (RateLimitResult.ttl res) 10 0
                              (RateLimitResult.reset res))]),
          w1).
Proof.
  eexists _, _.
  eapply (handle_admits_by_count demo_middleware (request_of [] (Some "10.0.0.3"))
            "10.0.0.3" demo_world);
    vm_compute; reflexivity.
Defined.

(* ===================================================================== *)
(** ** Inside a window *)
(* ===================================================================== *)

(** What a call that returns did when it found the counter of its key and
    ended before that counter expired. *)
Lemma limit_in_window this identifier w res w' e x :
  store w !! RateLimiter.buildKey this identifier = Some e ->
  Redis.expireAt e = Some x ->
  clock w' < x ->
  RateLimiter.limit this identifier w = (inr res, w') ->
  exists n,
    Redis.string2ll (Redis.value e) = Some n
    /\ store w' !! RateLimiter.buildKey this identifier
       = Some (Redis.mkEntry (Js.of_Z (n + 1)) (Some x))
    /\ RateLimitResult.ttl res
       = (if 0 <? (x - clock w' + 500) / 1000
          then (x - clock w' + 500) / 1000 else RateLimiter.window this)
    /\ RateLimitResult.reset res
       = Js.ceil_div (clock w) 1000
         + (if 0 <? (x - clock w' + 500) / 1000
            then (x - clock w' + 500) / 1000 else RateLimiter.window this)
    /\ clock w <= clock w'.
Proof.
  intros Hst Hx Hlt H. apply limit_inr in H as (_ & _ & H).
  apply fixedWindowLimit_inr in H
    as (rp & c & z & w1 & w2 & w3 & A1 & Hrp & A2 & A3 & -> & ->).
  apply answered_store in A1 as (st1 & E1 & S1 & G1 & L1 & T1).
  apply answered_store in A2 as (st2 & E2 & S2 & G2 & L2 & T2).
  apply answered_store in A3 as (st3 & E3 & S3 & G3 & L3 & T3).
  cbn [clock with_line] in Hlt.
  set (key := RateLimiter.buildKey this identifier) in *.
  assert (Hlive : forall t, t <= clock w3 -> Redis.expired e t = false).
  { intros t Ht. unfold Redis.expired. rewrite Hx. apply Z.leb_gt. lia. }
  unfold Redis.exec in E1.
  destruct (RateLimiter.window this <=? 0).
  { injection E1 as <- _. destruct Hrp as [|[m ?]]; discriminate. }
  rewrite (live_Some _ _ e) in E1; [|assumption|apply Hlive; lia].
  injection E1 as _ <-.
  unfold Redis.exec in E2. rewrite S1 in E2.
  rewrite (live_Some _ _ e) in E2; [|assumption|apply Hlive; lia].
  destruct (Redis.string2ll (Redis.value e)) as [n|]; [|discriminate].
  injection E2 as <- <-.
  unfold Redis.exec in E3. rewrite S2 in E3.
  rewrite (live_Some _ _ (Redis.mkEntry (Js.of_Z (n + 1)) (Redis.expireAt e)))
    in E3; [|apply lookup_insert_eq|].
  2:{ unfold Redis.expired. cbn. rewrite Hx. apply Z.leb_gt. lia. }
  cbn [Redis.expireAt] in E3. rewrite Hx in E3. injection E3 as <- <-.
  exists n. split; [reflexivity|].
  cbn [store clock with_line RateLimitResult.ttl RateLimitResult.reset].
  rewrite S3, T3.
  split; [apply lookup_insert_eq|]. split; [reflexivity|].
  split; [|lia].
  destruct (0 <? (x - arrival w2 + 500) / 1000); apply ceil_div_add_seconds.
Qed.

(** X21 (a window is never extended).  A [limit] call that returns, finds
    the counter of its key and ends before that counter expires leaves the
    expiry of the counter exactly where it was, and the count one higher:
    only the call that creates the counter sets its expiry. *)
Theorem call_in_window_keeps_expiry this identifier w res w' e x :
  store w !! RateLimiter.buildKey this identifier = Some e ->
  Redis.expireAt e = Some x ->
  clock w' < x ->
  RateLimiter.limit this identifier w = (inr res, w') ->
  exists n,
    Redis.string2ll (Redis.value e) = Some n
    /\ store w' !! RateLimiter.buildKey this identifier
       = Some (Redis.mkEntry (Js.of_Z (n + 1)) (Some x)).
Proof.
  intros Hst Hx Hlt H.
  destruct (limit_in_window _ _ _ _ _ _ _ Hst Hx Hlt H) as (n & Hn & S & _).
  eauto.
Qed.

Lemma call_in_window_keeps_expiry_witness :
  exists w' n,
    Redis.string2ll (Redis.value (Redis.mkEntry "1" (Some 1700000060123))) = Some n
    /\ store w' !! RateLimiter.buildKey demo_limiter "user-123"
       = Some (Redis.mkEntry (Js.of_Z (n + 1)) (Some 1700000060123)).
Proof.
  eexists.
  eapply (call_in_window_keeps_expiry demo_limiter "user-123"
            (snd (sleep 30000
               (snd (RateLimiter.limit demo_limiter "user-123" demo_world))))).
  4: { vm_compute. reflexivity. }
  - vm_compute. reflexivity.
  - reflexivity.
  - vm_compute. reflexivity.
Defined.

(** X22 (the reset time follows the end of the window).  For a [limit]
    call that returns, finds the counter of its key and ends at least half
    a second before that counter expires, the reported [reset], in
    milliseconds, is within one second of the expiry of the counter less
    the time the call took: the clock is read before the round-trips, so
    the latency of the call moves the reported time earlier by as much. *)
Theorem reset_follows_window_end this identifier w res w' e x :
  store w !! RateLimiter.buildKey this identifier = Some e ->
  Redis.expireAt e = Some x ->
  clock w' + 500 <= x ->
  RateLimiter.limit this identifier w = (inr res, w') ->
  let latency := clock w' - clock w in
  x - latency - 500 < 1000 * RateLimitResult.reset res < x - latency + 1500
  /\ 1000 * RateLimitResult.ttl res - 500 <= x - clock w'
     < 1000 * RateLimitResult.ttl res + 500.
Proof.
  intros Hst Hx Hlt H latency.
  destruct (limit_in_window this identifier w res w' e x Hst Hx ltac:(lia) H)
    as (n & _ & _ & Httl & Hreset & Hle).
  assert (Hz : 0 < (x - clock w' + 500) / 1000) by (apply Z.div_str_pos; lia).
  apply Z.ltb_lt in Hz. rewrite Hz in Httl, Hreset.
  rewrite Httl, Hreset. unfold Js.ceil_div, latency.
  Z.to_euclidean_division_equations. lia.
Qed.

Lemma reset_follows_window_end_witness :
  exists res w',
    let latency :=
      clock w'
      - clock (snd (sleep 30000
                 (snd (RateLimiter.limit demo_limiter "user-123" demo_world)))) in
    1700000060123 - latency - 500 < 1000 * RateLimitResult.reset res
                                  < 1700000060123 - latency + 1500
    /\ 1000 * RateLimitResult.ttl res - 500 <= 1700000060123 - clock w'
       < 1000 * RateLimitResult.ttl res + 500.
Proof.
  eexists _, _.
  eapply (reset_follows_window_end demo_limiter "user-123"
            (snd (sleep 30000
               (snd (RateLimiter.limit demo_limiter "user-123" demo_world))))
            _ _ (Redis.mkEntry "1" (Some 1700000060123))).
  4: { vm_compute. reflexivity. }
  - vm_compute. reflexivity.
  - reflexivity.
  - vm_compute. discriminate.
Defined.

(* ===================================================================== *)
(** ** Reading without writing *)
(* ===================================================================== *)

(** X23 ([getStatus] only reads).  However a [getStatus] call ends, with
    a value, with [null] or with an exception, the keyspace and the log
    are exactly as they were: no counter is created, changed or removed,
    and no expiry is touched. *)
Theorem getStatus_is_read_only this identifier w o w' :
  RateLimiter.getStatus this identifier w = (o, w') ->
  store w' = store w /\ logged w' = logged w.
Proof.
  unfold RateLimiter.getStatus.
  destruct (_ || _)%bool; [intros [= <- <-]; auto|].
  unfold bind at 1. unfold RateLimiter.isRedisAvailable.
  destruct (isOpen w && isReady w)%bool; cbn [negb]; [|intros [= <- <-]; auto].
  unfold bind, Client.multi_exec, send.
  destruct (delivered (next_leg w)); [|intros [= <- <-]; auto].
  cbn [run_request Redis.exec_all].
  destruct (Redis.exec _ (Redis.GET _) (store w)) as [rp1 st1] eqn:E1.
  destruct (Redis.exec _ (Redis.TTL _) st1) as [rp2 st2] eqn:E2.
  assert (st1 = store w) as ->.
  { unfold Redis.exec in E1. destruct (Redis.live (store w) _ _); congruence. }
  apply exec_TTL_store in E2. subst st2.
  destruct (_ || _)%bool; intros [= <- <-]; auto.
Qed.

Lemma getStatus_is_read_only_witness :
  store (snd (RateLimiter.getStatus demo_limiter "user-123"
                (snd (RateLimiter.limit demo_limiter "user-123" demo_world))))
  = store (snd (RateLimiter.limit demo_limiter "user-123" demo_world)).
Proof.
  eapply (getStatus_is_read_only demo_limiter "user-123").
  apply surjective_pairing.
Defined.

(* ===================================================================== *)
(** ** The first request of a window *)
(* ===================================================================== *)

Lemma rateLimit_limiter options mw :
  Express.rateLimit options = inr mw ->
  0 < RateLimiter.requestLimit (Express.limiter mw)
  /\ 0 < RateLimiter.window (Express.limiter mw).
Proof.
  unfold Express.rateLimit.
  repeat (match goal with
          | |- (if ?b then _ else _) = _ -> _ => destruct b; [discriminate|]
          end).
  destruct (RateLimiter.new _) as [e|l] eqn:N; [discriminate|].
  intros [= <-]. cbn [Express.limiter].
  apply new_inr in N as (_ & _ & _ & HQ & HW & _). auto.
Qed.

(** X24 (the first request of a window passes).  Through a middleware
    made by [rateLimit], a request that is not skipped, whose identifier
    resolves and has no live counter, and for which the limiter returns,
    is passed on with [next()]; with standard headers on it carries the
    quota, the quota less one as remaining, the reset time, and no
    Retry-After. *)
Theorem first_request_of_a_window_passes options mw req id w res w1 :
  Express.rateLimit options = inr mw ->
  Express.skipped mw req = inr false ->
  Express.clientIdentifier mw req = inr id ->
  Redis.live (store w) (RateLimiter.buildKey (Express.limiter mw) id) (clock w)
  = None ->
  RateLimiter.limit (Express.limiter mw) id w = (inr res, w1) ->
  Express.handle mw req w
  = (((if Express.mw_standardHeaders mw then
         [Express.SetHeader "X-RateLimit-Limit"
            (Js.of_Z (RateLimiter.requestLimit (Express.limiter mw)));
          Express.SetHeader "X-RateLimit-Remaining"
            (Js.of_Z (RateLimiter.requestLimit (Express.limiter mw) - 1));
          Express.SetHeader "X-RateLimit-Reset"
            (Js.of_Z (RateLimitResult.reset res))]
       else [])
      ++ [Express.Next])%list,
     w1).
Proof.
  intros Hmw Hs Hi Hno Hl.
  apply rateLimit_limiter in Hmw as [HQ _].
  unfold Express.handle. rewrite Hs, Hi, Hl.
  pose proof Hl as Hl'.
  apply limit_exchanges in Hl'
    as (rp & c & z & t1 & t2 & t3 & _ & _ & _ & _ & _ & _ & Hres).
  apply limit_inr in Hl as (_ & _ & Hl).
  apply fixedWindowLimit_fresh in Hl as (_ & _ & Hal & Hrem); [|assumption].
  assert (Hlim : RateLimitResult.limit res
                 = RateLimiter.requestLimit (Express.limiter mw))
    by (rewrite Hres; reflexivity).
  rewrite Hal, Hrem, Hlim.
  assert ((1 <=? RateLimiter.requestLimit (Express.limiter mw)) = true) as ->
    by (apply Z.leb_le; lia).
  rewrite Z.max_r by lia. reflexivity.
Qed.

Lemma first_request_of_a_window_passes_witness :
  exists res w1,
    Express.handle demo_middleware (request_of [] (Some "10.0.0.3")) demo_world
    = (((if Express.mw_standardHeaders demo_middleware then
           [Express.SetHeader "X-RateLimit-Limit"
              (Js.of_Z (RateLimiter.requestLimit (Express.limiter demo_middleware)));
            Express.SetHeader "X-RateLimit-Remaining"
              (Js.of_Z (RateLimiter.requestLimit (Express.limiter demo_middleware) - 1));
            Express.SetHeader "X-RateLimit-Reset"
              (Js.of_Z (RateLimitResult.reset res))]
         else [])
        ++ [Express.Next])%list,
       w1).
Proof.
  eexists _, _.
  eapply (first_request_of_a_window_passes demo_options demo_middleware
            (request_of [] (Some "10.0.0.3")) "10.0.0.3" demo_world);
    vm_compute; reflexivity.
Defined.

(* ===================================================================== *)
(** ** Verdict and remaining quota; the error of the constructor *)
(* ===================================================================== *)

(** X25 (verdict and remaining agree).  In every result of [limit], a
    rejection reports 0 remaining, a positive remaining means the request
    was allowed, and for an allowed request the remaining quota and the
    count observed add up to the quota. *)
Theorem verdict_and_remaining_agree this identifier w res w' :
  RateLimiter.limit this identifier w = (inr res, w') ->
  (RateLimitResult.allowed res = false -> RateLimitResult.remaining res = 0)
  /\ (0 < RateLimitResult.remaining res -> RateLimitResult.allowed res = true)
  /\ (RateLimitResult.allowed res = true ->
      exists c,
        logged w'
        = (logged w ++ [check_line this (RateLimiter.buildKey this identifier) c])%list
        /\ RateLimitResult.remaining res + c = RateLimiter.requestLimit this).
Proof.
  intros H.
  apply limit_leaves_count in H as (c & x & _ & G & Hal & Hrem).
  rewrite Hal, Hrem. repeat split.
  - intros C. apply Z.leb_gt in C. lia.
  - intros R. apply Z.leb_le. lia.
  - intros C. apply Z.leb_le in C. exists c. split; [assumption | lia].
Qed.

Lemma verdict_and_remaining_agree_witness :
  exists res w',
    (RateLimitResult.allowed res = false -> RateLimitResult.remaining res = 0)
    /\ (0 < RateLimitResult.remaining res -> RateLimitResult.allowed res = true)
    /\ (RateLimitResult.allowed res = true ->
        exists c,
          logged w'
          = (logged demo_world
             ++ [check_line demo_limiter
                   (RateLimiter.buildKey demo_limiter "user-123") c])%list
          /\ RateLimitResult.remaining res + c
             = RateLimiter.requestLimit demo_limiter).
Proof.
  eexists _, _.
  eapply (verdict_and_remaining_agree demo_limiter "user-123" demo_world).
  vm_compute. reflexivity.
Defined.

(** X26 (the constructor names the first invalid field).  The fields are
    checked in the order client, limit, window, key prefix, and the error
    thrown is that of the first one that fails, whatever the later fields
    hold. *)
Theorem constructor_names_first_invalid_field config :
  (RateLimiterConfig.redis config = None ->
   RateLimiter.new config = inl (Error "Redis client is required"))
  /\ (RateLimiterConfig.redis config <> None ->
      ~ positive_number (RateLimiterConfig.limit config) ->
      RateLimiter.new config = inl (Error "Limit must be a positive number"))
  /\ (RateLimiterConfig.redis config <> None ->
      positive_number (RateLimiterConfig.limit config) ->
      ~ positive_number (RateLimiterConfig.window config) ->
      RateLimiter.new config
      = inl (Error "Window must be a positive number (in seconds)"))
  /\ (RateLimiterConfig.redis config <> None ->
      positive_number (RateLimiterConfig.limit config) ->
      positive_number (RateLimiterConfig.window config) ->
      namespace_missing (RateLimiterConfig.keyPrefix config) ->
      RateLimiter.new config = inl (Error "Key prefix is required")).
Proof.
  unfold RateLimiter.new, RateLimiter.validateConfig.
  destruct config as [r l wd p a].
  cbn [RateLimiterConfig.redis RateLimiterConfig.limit RateLimiterConfig.window
       RateLimiterConfig.keyPrefix].
  pose proof (number_guard l) as Gl. pose proof (number_guard wd) as Gw.
  pose proof (prefix_guard p) as Gp.
  split; [intros ->; reflexivity|].
  destruct r as [r|]; cbn [Js.not_object].
  2:{ repeat split; intros H; exfalso; by apply H. }
  destruct (Js.not_number l || Js.le_zero l)%bool.
  { split; [reflexivity|]. split; intros _ Hl; exfalso; by apply Gl. }
  split; [intros _ Hl; apply Gl in Hl; discriminate|].
  destruct (Js.not_number wd || Js.le_zero wd)%bool.
  { split; [reflexivity|]. intros _ _ Hw. exfalso. by apply Gw. }
  split; [intros _ _ Hw; apply Gw in Hw; discriminate|].
  intros _ _ _ Hp. apply Gp in Hp. rewrite Hp. reflexivity.
Qed.

Lemma constructor_names_first_invalid_field_witness :
  RateLimiter.new
    (RateLimiterConfig.mk (Some TheClient) (Js.Num 0) (Js.Num (-1)) (Some "") None)
  = inl (Error "Limit must be a positive number").
Proof.
  apply constructor_names_first_invalid_field.
  - discriminate.
  - simpl. lia.
Defined.

(* ===================================================================== *)
(** ** Further runs *)
(* ===================================================================== *)

(** The prefix "api:v2" with the identifier "7" and the prefix "api" with
    the identifier "v2:7" meet on one key. *)
Lemma keys_separate_identifiers_not_prefixes_witness :
  RateLimiter.buildKey
    (RateLimiter.mk TheClient 10 60 ("api" +:+ ":" +:+ "v2") FixedWindow) "7"
  = RateLimiter.buildKey
      (RateLimiter.mk TheClient 5 30 "api" FixedWindow) ("v2" +:+ ":" +:+ "7").
Proof. apply (proj2 keys_separate_identifiers_not_prefixes). Defined.

Lemma extractClientIp_throws_iff_witness :
  exists e,
    Ip.extractClientIp (request_of [("x-forwarded-for", Ip.Many [])] (Some "10.0.0.3"))
    = inl e.
Proof. apply extractClientIp_throws_iff. vm_compute. reflexivity. Defined.

Lemma normalizeIp_removes_one_prefix_witness : Ip.normalizeIp "::ffff:" = "".
Proof.
  apply (proj2 (proj2 normalizeIp_removes_one_prefix)). right. reflexivity.
Defined.
